(** * schemareader: the table model, the provisional election of the main
      unique index and the global correction pass of [ReadTables]

    Shallow embedding of [schemareader/reader.go].  Go strings are byte
    strings ([string]), slices are lists, Go maps are [gmap string _];
    a map read of a missing key yields the zero value of the value type,
    as in Go.  [log.Fatal] ends the process: it is the [Fatal] outcome of
    the [run] monad. *)

From Stdlib Require Import ZArith Ascii String.
From stdpp Require Import gmap strings list fin_maps.

Local Open Scope string_scope.

(** ** Strings *)

(** [strings.Compare]: -1, 0 or +1 by byte-wise lexicographic order. *)
Definition strings_Compare (a b : string) : Z :=
  match String.compare a b with
  | Eq => 0%Z
  | Lt => (-1)%Z
  | Gt => 1%Z
  end.

(** [strings.Compare(a, b) == 0] *)
Definition compare_is_0 (a b : string) : bool := Z.eqb (strings_Compare a b) 0.

(** [len(s)] of a Go string *)
Definition len (s : string) : nat := String.length s.

(** ** Data model *)

Module UniqueIndex.
(** Modelled from the spec: the declaration of the struct [UniqueIndex]
    is not in [reader.go].  A unique index is a name and the column names
    it covers; the fields are named as in the composite literal
    [UniqueIndex{Name: indexName, Columns: indexColumns}]. *)
Record t : Type := mk { Name : string; Columns : list string }.

(** The Go zero value, read from a map at a missing key. *)
Definition zero : t := mk "" [].
End UniqueIndex.

Module Reference.
(** Modelled from the spec: the declaration of the struct [Reference] is
    not in [reader.go].  A reference is the referenced table name and the
    mapping from local to referenced column names; the fields are named as
    in [Reference{TableName: referencedTable, ColumnMapping: columnMap}]. *)
Record t : Type := mk { TableName : string; ColumnMapping : gmap string string }.
End Reference.

Module Table.
(** Modelled from the spec: the declaration of the struct [Table] is not
    in [reader.go].  A table is its name, its column names in order, the set
    of its primary-key columns, the name of the primary-key sequence (empty
    when there is none), its unique indexes by name, the elected
    [MainUniqueIndexName] and its references in order; the fields are named
    as in the composite literal that ends the assembly loop of
    [ReadTables]. *)
Record t : Type := mk {
  Name : string;
  Columns : list string;
  PKColumns : gmap string bool;
  PKSequence : string;
  UniqueIndexes : gmap string UniqueIndex.t;
  MainUniqueIndexName : string;
  References : list Reference.t
}.

(** The assignment [result[i].MainUniqueIndexName = v] on one element. *)
Definition setMainUniqueIndexName (v : string) (x : t) : t :=
  mk (Name x) (Columns x) (PKColumns x) (PKSequence x) (UniqueIndexes x) v
     (References x).
End Table.

(** [m[k]] on a Go map of strings: the empty string when [k] is missing. *)
Definition mapString (m : gmap string string) (k : string) : string :=
  default "" (m !! k).

(** [m[k]] on the map of unique indexes. *)
Definition mapIndex (m : gmap string UniqueIndex.t) (k : string) : UniqueIndex.t :=
  default UniqueIndex.zero (m !! k).

(** ** The global correction pass (second loop of [ReadTables])

    The slice [result] is the state; the loops read their elements from the
    current state, as Go's [range] over a slice does, and the only write is
    [result[i].MainUniqueIndexName = ""]. *)

Definition clearMain (i : nat) (result : list Table.t) : list Table.t :=
  alter (Table.setMainUniqueIndexName "") i result.

(** Body of [for _, referencedTable := range result]. *)
Definition referencedStep (i : nat) (reference : Reference.t)
    (result : list Table.t) (k : nat) : list Table.t :=
  match result !! k with
  | Some referencedTable =>
      if compare_is_0 (Table.Name referencedTable) (Reference.TableName reference)
      then
        if negb (compare_is_0 (Table.PKSequence referencedTable) "")
        then clearMain i result
        else result
      else result
  | None => result
  end.

Definition referencedLoop (i : nat) (reference : Reference.t)
    (result : list Table.t) : list Table.t :=
  foldl (referencedStep i reference) result (seq 0 (length result)).

(** Body of [for _, reference := range table.References]. *)
Definition referenceStep (i : nat) (column : string)
    (result : list Table.t) (reference : Reference.t) : list Table.t :=
  let referencedColumn := mapString (Reference.ColumnMapping reference) column in
  if compare_is_0 referencedColumn "id"
  then referencedLoop i reference result
  else result.

(** Body of [for _, column := range table.UniqueIndexes[...].Columns]. *)
Definition columnStep (i : nat) (table : Table.t)
    (result : list Table.t) (column : string) : list Table.t :=
  foldl (referenceStep i column) result (Table.References table).

(** Body of [for i, table := range result]. *)
Definition tableStep (result : list Table.t) (i : nat) : list Table.t :=
  match result !! i with
  | Some table =>
      if (0 <? len (Table.MainUniqueIndexName table))%nat
      then
        foldl (columnStep i table) result
          (UniqueIndex.Columns
             (mapIndex (Table.UniqueIndexes table) (Table.MainUniqueIndexName table)))
      else result
  | None => result
  end.

Definition correctionPass (result : list Table.t) : list Table.t :=
  foldl tableStep result (seq 0 (length result)).

(** ** Outcome of a run: [log.Fatal] or a value *)

Inductive run (A : Type) : Type :=
  | Fatal : run A
  | Done (a : A) : run A.
Arguments Fatal {A}.
Arguments Done {A} a.

#[global] Instance run_ret : MRet run := λ A a, Done a.
#[global] Instance run_bind : MBind run := λ A B f m,
  match m with
  | Fatal => Fatal
  | Done a => f a
  end.

(** ** The database as [database/sql] shows it

    [db.Query] returns an error or a cursor.  [rows.Next()] is true once per
    fetched row and then false; it is also false when fetching breaks off,
    and only [rows.Err()] tells the two apart.  [rows.Scan] of a fetched row
    yields its value or an error. *)

Inductive scanned (A : Type) : Type :=
  | Scanned (a : A) : scanned A
  | ScanError : scanned A.
Arguments Scanned {A} a.
Arguments ScanError {A}.

Record Rows (A : Type) : Type := mkRows {
  fetched : list (scanned A);   (* the rows for which [Next] is true *)
  brokenOff : bool              (* [rows.Err() != nil] once [Next] is false *)
}.
Arguments mkRows {A} fetched brokenOff.
Arguments fetched {A} r.
Arguments brokenOff {A} r.

Inductive queryResult (A : Type) : Type :=
  | QueryError : queryResult A
  | QueryRows (rows : Rows A) : queryResult A.
Arguments QueryError {A}.
Arguments QueryRows {A} rows.

(** A query that was answered in full with the rows [l]. *)
Definition answered {A : Type} (l : list A) : queryResult A :=
  QueryRows (mkRows (Scanned <$> l) false).

(** What the catalog answers to each of the eight statements of the file,
    by the arguments bound to [$1] and [$2]. *)
Record DB : Type := mkDB {
  columnNamesQuery : string → queryResult string;
  pkColumnNamesQuery : string → queryResult string;
  uniqueIndexNamesQuery : string → queryResult string;
  indexColumnsQuery : string → queryResult string;
  referenceConstraintNamesQuery : string → queryResult string;
  referencedTableQuery : string → queryResult string;
  referenceConstraintsQuery : string → string → queryResult (string * string);
  pkSequenceQuery : string → queryResult string
}.

(** The query did not succeed: an error of [db.Query], an error of a
    [rows.Scan], or a cursor that broke off. *)
Definition failedResult {A : Type} (q : queryResult A) : Prop :=
  match q with
  | QueryError => True
  | QueryRows rows => ScanError ∈ fetched rows ∨ brokenOff rows = true
  end.

(** ** The readers *)

Definition readTableNames (db : DB) : list string :=
  [ "rhnchannel"; "rhnchannelarch"; "rhnchannelerrata"; "rhnchannelfamily";
    "rhnchannelfamilymembers"; "rhnerrata"; "rhnchannelproduct"; "suseproducts";
    "rhnproductname";
    "rhnpackagearch"; "rhnerrataseverity"; "rhnchecksumtype"; "rhnarchtype" ].

(** [for rows.Next() { err := rows.Scan(&x); if err != nil { log.Fatal(err) };
    result = append(result, x) }] *)
Fixpoint scanLoop {A : Type} (rows : list (scanned A)) (result : list A)
    : run (list A) :=
  match rows with
  | [] => Done result
  | Scanned x :: rest => scanLoop rest (result ++ [x])
  | ScanError :: _ => Fatal
  end.

(** The body shared by the six readers that return a slice. *)
Definition queryStrings {A : Type} (q : queryResult A) : run (list A) :=
  match q with
  | QueryError => Fatal
  | QueryRows rows => scanLoop (fetched rows) []
  end.

Definition readColumnNames (db : DB) (tableName : string) : run (list string) :=
  queryStrings (columnNamesQuery db tableName).

Definition readPKColumnNames (db : DB) (tableName : string) : run (list string) :=
  queryStrings (pkColumnNamesQuery db tableName).

Definition readUniqueIndexNames (db : DB) (tableName : string) : run (list string) :=
  queryStrings (uniqueIndexNamesQuery db tableName).

Definition readIndexColumns (db : DB) (indexName : string) : run (list string) :=
  queryStrings (indexColumnsQuery db indexName).

Definition readReferenceConstraintNames (db : DB) (tableName : string)
    : run (list string) :=
  queryStrings (referenceConstraintNamesQuery db tableName).

(** [var name string; rows.Next(); rows.Scan(&name); return name]: neither
    result is looked at, so [name] stays empty unless a first row scans. *)
Definition queryFirst (q : queryResult string) : run string :=
  match q with
  | QueryError => Fatal
  | QueryRows rows =>
      Done match fetched rows with
           | Scanned name :: _ => name
           | _ => ""
           end
  end.

Definition readReferencedTable (db : DB) (tableName referenceConstraintName : string)
    : run string :=
  queryFirst (referencedTableQuery db referenceConstraintName).

Fixpoint scanMapLoop (rows : list (scanned (string * string)))
    (result : gmap string string) : run (gmap string string) :=
  match rows with
  | [] => Done result
  | Scanned (columnName, foreignColumnName) :: rest =>
      scanMapLoop rest (<[columnName := foreignColumnName]> result)
  | ScanError :: _ => Fatal
  end.

Definition readReferenceConstraints (db : DB)
    (tableName referenceConstraintName : string) : run (gmap string string) :=
  match referenceConstraintsQuery db tableName referenceConstraintName with
  | QueryError => Fatal
  | QueryRows rows => scanMapLoop (fetched rows) ∅
  end.

Definition readPKSequence (db : DB) (tableName : string) : run string :=
  queryFirst (pkSequenceQuery db tableName).

(** ** [findIndex]

    Go leaves the order of [range] over a map open.  [mapRange] is the order
    in which one [range] statement yields the entries; it is [validRange]
    when it yields every entry once. *)

Definition mapRange : Type :=
  gmap string UniqueIndex.t → list (string * UniqueIndex.t).

Definition validRange (ρ : mapRange) : Prop :=
  ∀ m, ρ m ≡ₚ map_to_list m.

(** The inner loop of [findIndex]: true when it reaches [return name]. *)
Fixpoint columnLoop (columns : list string) (columnName : string) : bool :=
  match columns with
  | [] => false
  | column :: rest =>
      if compare_is_0 column columnName then true else columnLoop rest columnName
  end.

Fixpoint indexLoop (entries : list (string * UniqueIndex.t)) (columnName : string)
    : string :=
  match entries with
  | [] => ""
  | (name, index) :: rest =>
      if columnLoop (UniqueIndex.Columns index) columnName
      then name
      else indexLoop rest columnName
  end.

Definition findIndex (ρ : mapRange) (indexes : gmap string UniqueIndex.t)
    (columnName : string) : string :=
  indexLoop (ρ indexes) columnName.

(** ** Assembly of one table (body of the first loop of [ReadTables]) *)

(** [indexNames[0]]; both uses are guarded by [len(indexNames) >= 1]. *)
Definition firstName (indexNames : list string) : string :=
  default "" (indexNames !! 0%nat).

(** The election of [mainUniqueIndexName]; [ρl] and [ρn] are the orders of
    the two [findIndex] calls. *)
Definition mainUniqueIndexName (ρl ρn : mapRange) (indexNames : list string)
    (indexes : gmap string UniqueIndex.t) : string :=
  if (length indexNames =? 1)%nat then firstName indexNames
  else if (1 <? length indexNames)%nat then
    let main := findIndex ρl indexes "label" in
    if (len main =? 0)%nat then
      let main := findIndex ρn indexes "name" in
      if (len main =? 0)%nat then firstName indexNames else main
    else main
  else "".

Fixpoint indexesLoop (db : DB) (indexNames : list string)
    (indexes : gmap string UniqueIndex.t) : run (gmap string UniqueIndex.t) :=
  match indexNames with
  | [] => Done indexes
  | indexName :: rest =>
      indexColumns ← readIndexColumns db indexName;
      indexesLoop db rest (<[indexName := UniqueIndex.mk indexName indexColumns]> indexes)
  end.

Fixpoint referencesLoop (db : DB) (tableName : string) (constraintNames : list string)
    (references : list Reference.t) : run (list Reference.t) :=
  match constraintNames with
  | [] => Done references
  | constraintName :: rest =>
      columnMap ← readReferenceConstraints db tableName constraintName;
      referencedTable ← readReferencedTable db tableName constraintName;
      referencesLoop db tableName rest
        (references ++ [Reference.mk referencedTable columnMap])
  end.

Definition pkColumnMapOf (pkColumns : list string) : gmap string bool :=
  foldl (λ m column, <[column := true]> m) ∅ pkColumns.

(** The order of every [range] over a map in a run: by the position of the
    table in [tableNames] and the column [findIndex] looks for. *)
Definition schedule : Type := nat → string → mapRange.

Definition validSchedule (σ : schedule) : Prop :=
  ∀ i columnName, validRange (σ i columnName).

Definition assembleTable (σ : schedule) (db : DB) (i : nat) (tableName : string)
    : run Table.t :=
  columns ← readColumnNames db tableName;
  pkColumns ← readPKColumnNames db tableName;
  pkSequence ← readPKSequence db tableName;
  indexNames ← readUniqueIndexNames db tableName;
  indexes ← indexesLoop db indexNames ∅;
  constraintNames ← readReferenceConstraintNames db tableName;
  references ← referencesLoop db tableName constraintNames [];
  mret (Table.mk tableName columns (pkColumnMapOf pkColumns) pkSequence indexes
          (mainUniqueIndexName (σ i "label") (σ i "name") indexNames indexes)
          references).

Fixpoint assembleLoop (σ : schedule) (db : DB) (i : nat) (tableNames : list string)
    (result : list Table.t) : run (list Table.t) :=
  match tableNames with
  | [] => Done result
  | tableName :: rest =>
      table ← assembleTable σ db i tableName;
      assembleLoop σ db (S i) rest (result ++ [table])
  end.

(** [ReadTables] over a given list of target tables. *)
Definition readTablesOf (σ : schedule) (db : DB) (tableNames : list string)
    : run (list Table.t) :=
  result ← assembleLoop σ db 0 tableNames [];
  mret (correctionPass result).

Definition ReadTables (σ : schedule) (db : DB) : run (list Table.t) :=
  readTablesOf σ db (readTableNames db).

(** ** The statement of [readPKSequence] over the catalog

    The three [information_schema] views the statement reads, with the
    columns it uses, and the statement as a query over them. *)

Module Catalog.
Record sequence : Type := mkSequence {
  sequence_schema : string;
  sequence_name : string
}.

Record table_constraint : Type := mkConstraint {
  constraint_schema : string;
  constraint_name : string;
  table_name : string;
  constraint_type : string
}.

Record key_column : Type := mkKeyColumn {
  kcu_constraint_name : string;
  kcu_table_name : string;
  column_name : string;
  ordinal_position : nat
}.

Record t : Type := mk {
  sequences : list sequence;
  table_constraints : list table_constraint;
  key_column_usage : list key_column
}.
End Catalog.

(** [n] characters fewer at the front of [s]. *)
Fixpoint dropChars (n : nat) (s : string) : string :=
  match n, s with
  | O, _ => s
  | S n', String _ rest => dropChars n' rest
  | S _, EmptyString => EmptyString
  end.

(** [regexp_replace(s, re, '')] without the flag [g]: the leftmost match of
    [re] is cut out, the rest of [s] stays.  [matchAt s] is the length of the
    match of [re] that starts at the front of [s], if there is one. *)
Fixpoint cutFirstMatch (matchAt : string → option nat) (s : string) : string :=
  match matchAt s with
  | Some n => dropChars n s
  | None =>
      match s with
      | EmptyString => EmptyString
      | String c rest => String c (cutFirstMatch matchAt rest)
      end
  end.

(** [(_id)?word] at the front of [s]; the optional group is greedy. *)
Definition matchOptId (word s : string) : option nat :=
  if String.prefix ("_id" +:+ word) s then Some (3 + String.length word)%nat
  else if String.prefix word s then Some (String.length word)
  else None.

(** [(_id)?_pk(ey)?] at the front of [s]. *)
Definition matchPk (s : string) : option nat :=
  match matchOptId "_pk" s with
  | Some n => Some (if String.prefix "ey" (dropChars n s) then n + 2 else n)%nat
  | None => None
  end.

(** [(_id)?_seq] at the front of [s]. *)
Definition matchSeq (s : string) : option nat := matchOptId "_seq" s.

(** [replace(s, '_', '')] *)
Fixpoint dropUnderscores (s : string) : string :=
  match s with
  | EmptyString => EmptyString
  | String c rest =>
      if Ascii.eqb c "_"%char then dropUnderscores rest
      else String c (dropUnderscores rest)
  end.

(** [replace(regexp_replace(constraint_name, '(_id)?_pk(ey)?', ''), '_', '')] *)
Definition normalConstraintName (constraint_name : string) : string :=
  dropUnderscores (cutFirstMatch matchPk constraint_name).

(** [replace(regexp_replace(sequence_name, '(_id)?_seq', ''), '_', '')] *)
Definition normalSequenceName (sequence_name : string) : string :=
  dropUnderscores (cutFirstMatch matchSeq sequence_name).

(** The common table expression [sequences]. *)
Definition cteSequences (cat : Catalog.t) : list string :=
  s ← Catalog.sequences cat;
  if String.eqb (Catalog.sequence_schema s) "public"
  then [Catalog.sequence_name s] else [].

(** The [WHERE] and [ON] conditions of [id_constraints]. *)
Definition idConstraintCond (tableName : string) (tc : Catalog.table_constraint)
    (kcu : Catalog.key_column) : bool :=
  String.eqb (Catalog.constraint_name tc) (Catalog.kcu_constraint_name kcu)
  && String.eqb (Catalog.constraint_schema tc) "public"
  && String.eqb (Catalog.constraint_type tc) "PRIMARY KEY"
  && (Catalog.ordinal_position kcu =? 1)%nat
  && String.eqb (Catalog.column_name kcu) "id"
  && String.eqb (Catalog.table_name tc) tableName.

(** The common table expression [id_constraints]: its [constraint_name]. *)
Definition cteIdConstraints (cat : Catalog.t) (tableName : string) : list string :=
  tc ← Catalog.table_constraints cat;
  kcu ← Catalog.key_column_usage cat;
  if idConstraintCond tableName tc kcu then [Catalog.constraint_name tc] else [].

(** The rows of the statement, in the order of the nested loops; the
    statement has no [ORDER BY], so the server may send any permutation. *)
Definition pkSequenceRows (cat : Catalog.t) (tableName : string) : list string :=
  constraint_name ← cteIdConstraints cat tableName;
  sequence_name ← cteSequences cat;
  if String.eqb (normalConstraintName constraint_name)
                (normalSequenceName sequence_name)
  then [sequence_name] else [].

(** The columns of the primary key of [tableName] itself: the rows of
    [key_column_usage] of that table that bear the name of its [PRIMARY KEY]
    constraint, in their order.  (The statement of [readPKSequence] does not
    compute this: it joins on the constraint name alone.) *)
Definition primaryKeyColumns (cat : Catalog.t) (tableName : string) : list string :=
  tc ← Catalog.table_constraints cat;
  kcu ← Catalog.key_column_usage cat;
  if String.eqb (Catalog.constraint_name tc) (Catalog.kcu_constraint_name kcu)
     && String.eqb (Catalog.constraint_schema tc) "public"
     && String.eqb (Catalog.constraint_type tc) "PRIMARY KEY"
     && String.eqb (Catalog.table_name tc) tableName
     && String.eqb (Catalog.kcu_table_name kcu) tableName
  then [Catalog.column_name kcu] else [].

(** In the words of the description of [GetPrimaryKeySequence]: "the primary
    key is the single column [id]". *)
Definition spec_pk_is_single_id (cat : Catalog.t) (tableName : string) : bool :=
  bool_decide (primaryKeyColumns cat tableName = ["id"]).

(** ** The correction pass as a condition on each table

    [sequenced result tableName]: the innermost loop reaches the assignment,
    that is, some table of [result] is named [tableName] and has a sequence. *)
Definition sequenced (result : list Table.t) (tableName : string) : bool :=
  existsb (λ referencedTable,
             compare_is_0 (Table.Name referencedTable) tableName
             && negb (compare_is_0 (Table.PKSequence referencedTable) ""))
          result.

(** [revoked result table]: the loops over the columns of the elected index
    and over the references of [table] reach the assignment. *)
Definition revoked (result : list Table.t) (table : Table.t) : bool :=
  (0 <? len (Table.MainUniqueIndexName table))%nat
  && existsb (λ column,
       existsb (λ reference,
                  compare_is_0 (mapString (Reference.ColumnMapping reference) column) "id"
                  && sequenced result (Reference.TableName reference))
               (Table.References table))
       (UniqueIndex.Columns
          (mapIndex (Table.UniqueIndexes table) (Table.MainUniqueIndexName table))).

Definition corrected (result : list Table.t) (table : Table.t) : Table.t :=
  if revoked result table then Table.setMainUniqueIndexName "" table else table.

(** What the pass never writes: every field but [MainUniqueIndexName]. *)
Definition sameButMain (a b : Table.t) : Prop :=
  Table.Name b = Table.Name a
  ∧ Table.Columns b = Table.Columns a
  ∧ Table.PKColumns b = Table.PKColumns a
  ∧ Table.PKSequence b = Table.PKSequence a
  ∧ Table.UniqueIndexes b = Table.UniqueIndexes a
  ∧ Table.References b = Table.References a
  ∧ (Table.MainUniqueIndexName b = Table.MainUniqueIndexName a
     ∨ Table.MainUniqueIndexName b = "").

(** The fields of a table that the innermost loop reads. *)
Definition keysOf (result : list Table.t) : list (string * string) :=
  (λ table, (Table.Name table, Table.PKSequence table)) <$> result.

(** ** A small assembled set

    [rhnchannelfamily] has a sequence for its [id] and a unique index on
    [label]; [rhnchannelfamilymembers] has one unique index over two foreign
    keys; [rhnchannel] is elected on [label] and refers to a table outside
    the set, to [rhnchannelarch] whose key has no sequence, and by a column
    that is not [id]. *)

Definition exChannelFamily : Table.t :=
  Table.mk "rhnchannelfamily" ["id"; "label"; "name"] {["id" := true]}
    "rhn_channel_family_id_seq"
    {["rhn_channel_family_label_uq" :=
        UniqueIndex.mk "rhn_channel_family_label_uq" ["label"]]}
    "rhn_channel_family_label_uq" [].

Definition exMembers : Table.t :=
  Table.mk "rhnchannelfamilymembers" ["channel_id"; "channel_family_id"] ∅ ""
    {["rhn_cfm_uq" := UniqueIndex.mk "rhn_cfm_uq" ["channel_id"; "channel_family_id"]]}
    "rhn_cfm_uq"
    [Reference.mk "rhnchannel" {["channel_id" := "id"]};
     Reference.mk "rhnchannelfamily" {["channel_family_id" := "id"]}].

Definition exChannelArch : Table.t :=
  Table.mk "rhnchannelarch" ["id"; "label"] {["id" := true]} "" ∅ "" [].

Definition exChannel : Table.t :=
  Table.mk "rhnchannel" ["id"; "label"; "org_id"; "channel_arch_id"; "parent_label"]
    {["id" := true]} "rhn_channel_id_seq"
    {["rhn_channel_label_uq" :=
        UniqueIndex.mk "rhn_channel_label_uq"
          ["label"; "org_id"; "channel_arch_id"; "parent_label"]]}
    "rhn_channel_label_uq"
    [Reference.mk "web_customer" {["org_id" := "id"]};
     Reference.mk "rhnchannelarch" {["channel_arch_id" := "id"]};
     Reference.mk "rhnchannelfamily" {["parent_label" := "label"]}].

Definition exFamilySet : list Table.t := [exChannelFamily; exMembers].

Definition exChannelSet : list Table.t := [exChannelFamily; exChannelArch; exChannel].

(** ** A small catalog to run the readers on *)

(** The answer to a statement with one argument, from a table of answers;
    no row for an argument that is not listed. *)
Definition answerOf {A : Type} (answers : list (string * list A)) (arg : string)
    : queryResult A :=
  answered (default [] ((list_to_map answers : gmap string (list A)) !! arg)).

(** [rhnchannel] has a unique index on [label] and one on [name];
    [rhnchannelfamily] has a single unique index; [rhnerrata] has two unique
    indexes, neither on [label] nor on [name]; the other tables have none.
    [rhnchannelfamilymembers] refers to [rhnchannelfamily]. *)
Definition exDB : DB :=
  mkDB
    (answerOf [("rhnchannel", ["id"; "label"; "name"]);
               ("rhnchannelfamily", ["id"; "label"]);
               ("rhnchannelfamilymembers", ["channel_family_id"; "org_id"]);
               ("rhnerrata", ["id"; "advisory"; "advisory_name"; "org_id"])])
    (answerOf [("rhnchannel", ["id"]); ("rhnchannelfamily", ["id"]);
               ("rhnerrata", ["id"])])
    (answerOf [("rhnchannel", ["rhn_channel_name_uq"; "rhn_channel_label_uq"]);
               ("rhnchannelfamily", ["rhn_channel_family_label_uq"]);
               ("rhnchannelfamilymembers", ["rhn_cfm_uq"]);
               ("rhnerrata", ["rhn_errata_advisory_uq"; "rhn_errata_advname_uq"])])
    (answerOf [("rhn_channel_name_uq", ["name"]);
               ("rhn_channel_label_uq", ["label"]);
               ("rhn_channel_family_label_uq", ["label"]);
               ("rhn_cfm_uq", ["channel_family_id"; "org_id"]);
               ("rhn_errata_advisory_uq", ["advisory"; "org_id"]);
               ("rhn_errata_advname_uq", ["advisory_name"; "org_id"])])
    (answerOf [("rhnchannelfamilymembers", ["rhn_cfm_cfid_fk"])])
    (answerOf [("rhn_cfm_cfid_fk", ["rhnchannelfamily"])])
    (λ tableName, answerOf [("rhn_cfm_cfid_fk", [("channel_family_id", "id")])])
    (answerOf [("rhnchannel", ["rhn_channel_id_seq"]);
               ("rhnchannelfamily", ["rhn_channel_family_id_seq"]);
               ("rhnerrata", ["rhn_errata_id_seq"])]).

(** Two orders of [range] over a map: one, and the reverse of it. *)
Definition ascending : schedule := λ _ _ m, map_to_list m.
Definition descending : schedule := λ _ _ m, reverse (map_to_list m).

(** The table a run assembled, for the examples. *)
Definition tableOf (r : run Table.t) : Table.t :=
  match r with
  | Done table => table
  | Fatal => Table.mk "" [] ∅ "" ∅ "" []
  end.

(** ** When the order of [range] cannot matter *)

(** The names of the indexes of the map that have a column [columnName]. *)
Definition namesOn (columnName : string) (indexes : gmap string UniqueIndex.t)
    : list string :=
  (filter (λ entry, columnName ∈ UniqueIndex.Columns entry.2) (map_to_list indexes)).*1.

(** The indexes among which the order of [range] chooses: those with a
    column [label] or, when there is none, those with a column [name]. *)
Definition candidates (T : Table.t) : list string :=
  match namesOn "label" (Table.UniqueIndexes T) with
  | [] => namesOn "name" (Table.UniqueIndexes T)
  | names => names
  end.

(** The correction pass over [result] clears [T] when [name] is elected for
    it: a column of the index [name] is mapped by a reference of [T] to the
    column [id] of a table of [result] that has a sequence. *)
Definition revokedAs (result : list Table.t) (T : Table.t) (name : string) : Prop :=
  ∃ index column reference referencedTable,
    Table.UniqueIndexes T !! name = Some index
    ∧ column ∈ UniqueIndex.Columns index
    ∧ reference ∈ Table.References T
    ∧ Reference.ColumnMapping reference !! column = Some "id"
    ∧ referencedTable ∈ result
    ∧ Table.Name referencedTable = Reference.TableName reference
    ∧ Table.PKSequence referencedTable ≠ "".

(** No index of [T] is named by the empty string, and the candidates of [T]
    are at most one or are all revoked by the pass over [result]. *)
Definition settled (result : list Table.t) (T : Table.t) : Prop :=
  Table.UniqueIndexes T !! "" = None
  ∧ ((length (candidates T) ≤ 1)%nat ∨ Forall (revokedAs result T) (candidates T)).

(** [rhnchannel] with two unique indexes that both cover [label]. *)
Definition exTwoLabelsDB : DB :=
  mkDB
    (answerOf [("rhnchannel", ["id"; "label"; "org_id"])])
    (answerOf [("rhnchannel", ["id"])])
    (answerOf [("rhnchannel", ["rhn_channel_label_uq"; "rhn_channel_org_label_uq"])])
    (answerOf [("rhn_channel_label_uq", ["label"]);
               ("rhn_channel_org_label_uq", ["label"; "org_id"])])
    (answerOf [])
    (answerOf [])
    (λ tableName, answerOf [])
    (answerOf [("rhnchannel", ["rhn_channel_id_seq"])]).

(** [rhnchannel] with two unique indexes that both cover [name], and none
    on [label]. *)
Definition exTwoNamesDB : DB :=
  mkDB
    (answerOf [("rhnchannel", ["id"; "name"; "org_id"])])
    (answerOf [("rhnchannel", ["id"])])
    (answerOf [("rhnchannel", ["rhn_channel_name_uq"; "rhn_channel_org_name_uq"])])
    (answerOf [("rhn_channel_name_uq", ["name"]);
               ("rhn_channel_org_name_uq", ["name"; "org_id"])])
    (answerOf [])
    (answerOf [])
    (λ tableName, answerOf [])
    (answerOf [("rhnchannel", ["rhn_channel_id_seq"])]).

(** [rhnchannel] with one unique index on [label] and two on [name];
    [rhnchannelfamilymembers] with two unique indexes on [label], both over
    the foreign key to [rhnchannelfamily], whose [id] has a sequence. *)
Definition exSettledDB : DB :=
  mkDB
    (answerOf [("rhnchannel", ["id"; "label"; "name"; "org_id"]);
               ("rhnchannelfamily", ["id"; "label"]);
               ("rhnchannelfamilymembers", ["channel_family_id"; "org_id"; "label"])])
    (answerOf [("rhnchannel", ["id"]); ("rhnchannelfamily", ["id"])])
    (answerOf [("rhnchannel", ["rhn_channel_name_uq"; "rhn_channel_org_name_uq";
                               "rhn_channel_label_uq"]);
               ("rhnchannelfamily", ["rhn_channel_family_label_uq"]);
               ("rhnchannelfamilymembers", ["rhn_cfm_label_uq"; "rhn_cfm_org_label_uq"])])
    (answerOf [("rhn_channel_name_uq", ["name"]);
               ("rhn_channel_org_name_uq", ["name"; "org_id"]);
               ("rhn_channel_label_uq", ["label"]);
               ("rhn_channel_family_label_uq", ["label"]);
               ("rhn_cfm_label_uq", ["channel_family_id"; "label"]);
               ("rhn_cfm_org_label_uq", ["channel_family_id"; "org_id"; "label"])])
    (answerOf [("rhnchannelfamilymembers", ["rhn_cfm_cfid_fk"])])
    (answerOf [("rhn_cfm_cfid_fk", ["rhnchannelfamily"])])
    (λ tableName, answerOf [("rhn_cfm_cfid_fk", [("channel_family_id", "id")])])
    (answerOf [("rhnchannel", ["rhn_channel_id_seq"]);
               ("rhnchannelfamily", ["rhn_channel_family_id_seq"])]).

(** The elected names in the result of a run. *)
Definition mainNames (r : run (list Table.t)) : list string :=
  match r with
  | Done result => Table.MainUniqueIndexName <$> result
  | Fatal => []
  end.

(** Two runs agree up to [R]: both end in [log.Fatal], or both return and
    their results are related by [R]. *)
Definition agree {A : Type} (R : A → A → Prop) (r1 r2 : run A) : Prop :=
  match r1, r2 with
  | Fatal, Fatal => True
  | Done a1, Done a2 => R a1 a2
  | _, _ => False
  end.


(** ** Cursors that break off

    As [exDB], but the cursor of the statement of [readUniqueIndexNames] for
    [rhnchannel] breaks off after its first row: [db.Query] returns no
    error, [rows.Next()] is true once and then false, and [rows.Err()] is
    not nil.  The second index, on [label], is never fetched. *)
Definition exTruncatedDB : DB :=
  mkDB (columnNamesQuery exDB) (pkColumnNamesQuery exDB)
       (λ tableName,
          if String.eqb tableName "rhnchannel"
          then QueryRows (mkRows [Scanned "rhn_channel_name_uq"] true)
          else uniqueIndexNamesQuery exDB tableName)
       (indexColumnsQuery exDB) (referenceConstraintNamesQuery exDB)
       (referencedTableQuery exDB) (referenceConstraintsQuery exDB)
       (pkSequenceQuery exDB).

(** As [exDB], but the cursor of the statement of [readReferencedTable] for
    the foreign key of [rhnchannelfamilymembers] breaks off before its first
    row: [db.Query] returns no error, [rows.Next()] is false and
    [rows.Err()] is not nil. *)
Definition exBrokenDB : DB :=
  mkDB (columnNamesQuery exDB) (pkColumnNamesQuery exDB) (uniqueIndexNamesQuery exDB)
       (indexColumnsQuery exDB) (referenceConstraintNamesQuery exDB)
       (λ referenceConstraintName,
          if String.eqb referenceConstraintName "rhn_cfm_cfid_fk"
          then QueryRows (mkRows [] true)
          else referencedTableQuery exDB referenceConstraintName)
       (referenceConstraintsQuery exDB) (pkSequenceQuery exDB).

(** The names of the tables to which the tables in the result of a run
    refer. *)
Definition referencedNames (r : run (list Table.t)) : list (list string) :=
  match r with
  | Done result =>
      (λ table, Reference.TableName <$> Table.References table) <$> result
  | Fatal => []
  end.

(** ** Catalogs for the statement of [readPKSequence] *)

(** The rows of the three views that make the statement return a
    sequence: a [PRIMARY KEY] constraint [tc] of the table, a row [kcu] of
    [key_column_usage] with the name of [tc] (of whatever table: the join is
    on [constraint_name] alone) for the column [id] at position 1, and a
    sequence [s] with the normal name of [tc]. *)
Definition matchingKey (cat : Catalog.t) (tableName : string)
    (tc : Catalog.table_constraint) (kcu : Catalog.key_column)
    (s : Catalog.sequence) : Prop :=
  tc ∈ Catalog.table_constraints cat
  ∧ kcu ∈ Catalog.key_column_usage cat
  ∧ s ∈ Catalog.sequences cat
  ∧ Catalog.constraint_schema tc = "public"
  ∧ Catalog.constraint_type tc = "PRIMARY KEY"
  ∧ Catalog.table_name tc = tableName
  ∧ Catalog.kcu_constraint_name kcu = Catalog.constraint_name tc
  ∧ Catalog.column_name kcu = "id"
  ∧ Catalog.ordinal_position kcu = 1%nat
  ∧ Catalog.sequence_schema s = "public"
  ∧ normalConstraintName (Catalog.constraint_name tc)
    = normalSequenceName (Catalog.sequence_name s).

(** [db] with the statement of [readPKSequence] answered from [cat]. *)
Definition withCatalog (cat : Catalog.t) (db : DB) : DB :=
  mkDB (columnNamesQuery db) (pkColumnNamesQuery db) (uniqueIndexNamesQuery db)
       (indexColumnsQuery db) (referenceConstraintNamesQuery db)
       (referencedTableQuery db) (referenceConstraintsQuery db)
       (λ tableName, answered (pkSequenceRows cat tableName)).

(** [rhnchannel]: primary key [id], sequence named after the constraint. *)
Definition exChannelCatalog : Catalog.t :=
  Catalog.mk
    [Catalog.mkSequence "public" "rhn_errata_id_seq";
     Catalog.mkSequence "public" "rhn_channel_id_seq"]
    [Catalog.mkConstraint "public" "rhn_channel_id_pk" "rhnchannel" "PRIMARY KEY";
     Catalog.mkConstraint "public" "rhn_channel_label_uq" "rhnchannel" "UNIQUE"]
    [Catalog.mkKeyColumn "rhn_channel_id_pk" "rhnchannel" "id" 1;
     Catalog.mkKeyColumn "rhn_channel_label_uq" "rhnchannel" "label" 1].

(** The target table [rhnchannelproduct] with the pair ([id], [product]) as
    its primary key. *)
Definition exCompositeCatalog : Catalog.t :=
  Catalog.mk
    [Catalog.mkSequence "public" "rhn_channelprod_id_seq"]
    [Catalog.mkConstraint "public" "rhn_channelprod_id_pk" "rhnchannelproduct"
       "PRIMARY KEY"]
    [Catalog.mkKeyColumn "rhn_channelprod_id_pk" "rhnchannelproduct" "id" 1;
     Catalog.mkKeyColumn "rhn_channelprod_id_pk" "rhnchannelproduct" "product" 2].

(** The target table [rhnchecksumtype] with the single column [label] as
    its primary key, and a table [rhnchecksum] with a foreign key on its
    column [id] that bears the same constraint name (constraint names are
    unique within a table only). *)
Definition exSameNameCatalog : Catalog.t :=
  Catalog.mk
    [Catalog.mkSequence "public" "rhn_checksumtype_seq"]
    [Catalog.mkConstraint "public" "rhn_checksumtype_pk" "rhnchecksumtype"
       "PRIMARY KEY";
     Catalog.mkConstraint "public" "rhn_checksumtype_pk" "rhnchecksum"
       "FOREIGN KEY"]
    [Catalog.mkKeyColumn "rhn_checksumtype_pk" "rhnchecksumtype" "label" 1;
     Catalog.mkKeyColumn "rhn_checksumtype_pk" "rhnchecksum" "id" 1].

(** ** Tactics *)

(** Case analysis on membership in a list that is written out. *)
Ltac split_elem_of H :=
  repeat (let E := fresh "E" in
          apply elem_of_cons in H as [E|H]; [simplify_eq E; intros; subst|]);
  [..|by apply elem_of_nil in H].

(** ** Further conditions on tables and catalogs *)

(** Every field but [MainUniqueIndexName] is the same. *)
Definition sameExceptMain (a b : Table.t) : Prop :=
  Table.Name b = Table.Name a
  ∧ Table.Columns b = Table.Columns a
  ∧ Table.PKColumns b = Table.PKColumns a
  ∧ Table.PKSequence b = Table.PKSequence a
  ∧ Table.UniqueIndexes b = Table.UniqueIndexes a
  ∧ Table.References b = Table.References a.

(** [MainUniqueIndexName] is empty or the key of a unique index of the
    table that bears it as its [Name]. *)
Definition mainIsIndex (T : Table.t) : Prop :=
  Table.MainUniqueIndexName T = ""
  ∨ ∃ index, Table.UniqueIndexes T !! Table.MainUniqueIndexName T = Some index
             ∧ UniqueIndex.Name index = Table.MainUniqueIndexName T.

(** [db.Query] returned a cursor and no [rows.Scan] of it fails. *)
Definition scans {A : Type} (q : queryResult A) : Prop :=
  ∃ rows, q = QueryRows rows ∧ ScanError ∉ fetched rows.

(** No statement meets an error that the readers look at: [db.Query]
    succeeds in all eight, and [rows.Scan] in the six that loop. *)
Definition noCheckedError (db : DB) : Prop :=
  (∀ tableName, scans (columnNamesQuery db tableName))
  ∧ (∀ tableName, scans (pkColumnNamesQuery db tableName))
  ∧ (∀ tableName, scans (uniqueIndexNamesQuery db tableName))
  ∧ (∀ indexName, scans (indexColumnsQuery db indexName))
  ∧ (∀ tableName, scans (referenceConstraintNamesQuery db tableName))
  ∧ (∀ constraintName, referencedTableQuery db constraintName ≠ QueryError)
  ∧ (∀ tableName constraintName,
       scans (referenceConstraintsQuery db tableName constraintName))
  ∧ (∀ tableName, pkSequenceQuery db tableName ≠ QueryError).

(** The tables a run returned, for the examples. *)
Definition resultOf (r : run (list Table.t)) : list Table.t :=
  match r with
  | Done result => result
  | Fatal => []
  end.

(** Two unique indexes, the one on [label] also named first by the order
    of strings. *)
Definition exIndexes : gmap string UniqueIndex.t :=
  {[ "rhn_channel_label_uq" := UniqueIndex.mk "rhn_channel_label_uq" ["label"];
     "rhn_channel_name_uq" := UniqueIndex.mk "rhn_channel_name_uq" ["name"; "org_id"] ]}.

(** [pattern] occurs in [s] as a substring. *)
Fixpoint occurs (pattern s : string) : bool :=
  String.prefix pattern s
  || match s with
     | EmptyString => false
     | String _ rest => occurs pattern rest
     end.

(** Two tables assembled from the same answers under two orders of
    [range]: every field but [MainUniqueIndexName] is the same, and the two
    elected names are the same or are both candidates. *)
Definition electedAlike (T1 T2 : Table.t) : Prop :=
  sameExceptMain T1 T2
  ∧ (Table.UniqueIndexes T1 !! "" = None →
     Table.MainUniqueIndexName T2 = Table.MainUniqueIndexName T1
     ∨ (Table.MainUniqueIndexName T1 ∈ candidates T1
        ∧ Table.MainUniqueIndexName T2 ∈ candidates T1)).

(** A catalog whose answer for one foreign key has two rows for the local
    column [org_id], as the join of [readReferenceConstraints] gives when
    the constraint name is shared by constraints on different referenced
    columns. *)
Definition exRepeatedColumnDB : DB :=
  mkDB (answerOf []) (answerOf []) (answerOf []) (answerOf [])
       (answerOf [("rhnchannel", ["rhn_channel_org_fk"])])
       (answerOf [("rhn_channel_org_fk", ["web_customer"])])
       (λ tableName,
          answerOf [("rhn_channel_org_fk",
                     [("org_id", "id"); ("channel_arch_id", "id");
                      ("org_id", "org_key")])])
       (answerOf []).


(** * Properties *)

(** ** Strings and small loops *)

Lemma string_compare_refl (a : string) : String.compare a a = Eq.
Proof.
  pose proof (String.compare_antisym a a) as H.
  destruct (String.compare a a); simpl in H; congruence.
Qed.

Lemma compare_is_0_true (a b : string) : compare_is_0 a b = true ↔ a = b.
Proof.
  unfold compare_is_0, strings_Compare. split.
  - destruct (String.compare a b) eqn:E; try done.
    intros _. by apply String.compare_eq_iff.
  - intros ->. by rewrite string_compare_refl.
Qed.

Lemma compare_is_0_false (a b : string) : compare_is_0 a b = false ↔ a ≠ b.
Proof.
  rewrite <- compare_is_0_true. destruct (compare_is_0 a b); naive_solver.
Qed.

Lemma len_0 (s : string) : len s = 0%nat ↔ s = "".
Proof. destruct s; naive_solver. Qed.

Lemma columnLoop_true (columns : list string) (columnName : string) :
  columnLoop columns columnName = true ↔ columnName ∈ columns.
Proof.
  induction columns as [|column rest IH]; simpl.
  - split; [done|]. by intros ?%elem_of_nil.
  - rewrite elem_of_cons. destruct (compare_is_0 column columnName) eqn:E.
    + apply compare_is_0_true in E. split; [intros _; by left | done].
    + apply compare_is_0_false in E. rewrite IH.
      split; [by right | intros [->|?]; done].
Qed.

Lemma existsb_pointwise {A} (f g : A → bool) (l : list A) :
  (∀ x, f x = g x) → existsb f l = existsb g l.
Proof. intros E. induction l as [|x l IH]; simpl; [done|]. by rewrite E, IH. Qed.

Lemma existsb_true {A} (f : A → bool) (l : list A) :
  existsb f l = true ↔ ∃ x, x ∈ l ∧ f x = true.
Proof.
  rewrite existsb_exists. split; intros (x & Hx & Hf); exists x; split; try done.
  - by apply list_elem_of_In.
  - by apply list_elem_of_In.
Qed.

(** ** The correction pass *)

Section correction.
Implicit Types (result res : list Table.t) (table : Table.t).

Lemma keysOf_alter (f : Table.t → Table.t) i res :
  (∀ table, Table.Name (f table) = Table.Name table
            ∧ Table.PKSequence (f table) = Table.PKSequence table) →
  keysOf (alter f i res) = keysOf res.
Proof.
  intros Hf. unfold keysOf. revert i.
  induction res as [|x res IH]; intros [|i]; simpl; try done.
  - destruct (Hf x) as [-> ->]. done.
  - f_equal. apply IH.
Qed.

Lemma keysOf_clearMain i res : keysOf (clearMain i res) = keysOf res.
Proof. by apply keysOf_alter. Qed.

Lemma corrected_keeps result table :
  Table.Name (corrected result table) = Table.Name table
  ∧ Table.PKSequence (corrected result table) = Table.PKSequence table.
Proof. unfold corrected. by destruct (revoked result table). Qed.

Lemma keysOf_corrected result res :
  keysOf (corrected result <$> res) = keysOf res.
Proof.
  unfold keysOf. rewrite <- list_fmap_compose. apply list_fmap_ext.
  intros _ table _. simpl. by destruct (corrected_keeps result table) as [-> ->].
Qed.

Lemma sequenced_keys res res' tableName :
  keysOf res = keysOf res' → sequenced res tableName = sequenced res' tableName.
Proof.
  unfold sequenced, keysOf. revert res'.
  induction res as [|x res IH]; intros [|y res']; simpl; try done.
  intros [= -> -> E]. f_equal. auto.
Qed.

Lemma revoked_keys res res' table :
  keysOf res = keysOf res' → revoked res table = revoked res' table.
Proof.
  intros E. unfold revoked. f_equal.
  apply existsb_pointwise. intros column.
  apply existsb_pointwise. intros reference.
  f_equal. by apply sequenced_keys.
Qed.

Lemma clearMain_twice i res : clearMain i (clearMain i res) = clearMain i res.
Proof.
  unfold clearMain. rewrite list_alter_alter_eq.
  by apply list_alter_ext.
Qed.

(** A loop whose body either performs the assignment or does nothing, by a
    test that the assignment does not change, performs it iff the test
    holds for one of the elements. *)
Lemma foldl_clearMain {A} (f : list Table.t → A → list Table.t)
    (p : list Table.t → A → bool) (i : nat) :
  (∀ res a, f res a = if p res a then clearMain i res else res) →
  (∀ res a, p (clearMain i res) a = p res a) →
  ∀ l res, foldl f res l = if existsb (p res) l then clearMain i res else res.
Proof.
  intros Hf Hp l. induction l as [|a l IH]; intros res; simpl; [done|].
  rewrite IH, Hf. destruct (p res a) eqn:Ea; simpl.
  - rewrite clearMain_twice. by destruct (existsb _ l).
  - done.
Qed.

Lemma existsb_lookup_seq {A} (p : A → bool) (l : list A) :
  existsb (λ k, match l !! k with Some x => p x | None => false end)
          (seq 0 (length l))
  = existsb p l.
Proof.
  induction l as [|x l IH]; simpl; [done|]. f_equal.
  rewrite <- IH, <- fmap_S_seq. clear IH.
  induction (seq 0 (length l)) as [|k ks IHk]; simpl; [done|]. by f_equal.
Qed.

Lemma referencedLoop_spec i reference res :
  referencedLoop i reference res
  = if sequenced res (Reference.TableName reference) then clearMain i res else res.
Proof.
  unfold referencedLoop.
  set (p := λ (r : list Table.t) (k : nat),
         match r !! k with
         | Some rt =>
             compare_is_0 (Table.Name rt) (Reference.TableName reference)
             && negb (compare_is_0 (Table.PKSequence rt) "")
         | None => false
         end).
  rewrite (foldl_clearMain (referencedStep i reference) p i).
  - unfold p, sequenced. by rewrite existsb_lookup_seq.
  - intros r k. unfold referencedStep, p. destruct (r !! k) as [rt|]; [|done].
    destruct (compare_is_0 (Table.Name rt) _); [|done].
    by destruct (negb _).
  - intros r k. unfold p, clearMain.
    destruct (decide (i = k)) as [->|Hne].
    + rewrite list_lookup_alter_eq. by destruct (r !! k).
    + by rewrite list_lookup_alter_ne.
Qed.

Lemma columnStep_spec i table res column :
  columnStep i table res column
  = if existsb (λ reference,
                  compare_is_0 (mapString (Reference.ColumnMapping reference) column) "id"
                  && sequenced res (Reference.TableName reference))
               (Table.References table)
    then clearMain i res else res.
Proof.
  unfold columnStep.
  apply (foldl_clearMain (referenceStep i column)
           (λ r reference,
              compare_is_0 (mapString (Reference.ColumnMapping reference) column) "id"
              && sequenced r (Reference.TableName reference))).
  - intros r reference. unfold referenceStep. rewrite referencedLoop_spec.
    by destruct (compare_is_0 _ "id").
  - intros r reference. f_equal. apply sequenced_keys, keysOf_clearMain.
Qed.

Lemma tableStep_spec res i :
  tableStep res i = alter (corrected res) i res.
Proof.
  unfold tableStep. destruct (res !! i) as [table|] eqn:Ei.
  - assert (Hfold : ∀ columns,
        foldl (columnStep i table) res columns
        = if existsb (λ column,
               existsb (λ reference,
                  compare_is_0 (mapString (Reference.ColumnMapping reference) column) "id"
                  && sequenced res (Reference.TableName reference))
                 (Table.References table)) columns
          then clearMain i res else res).
    { intros columns.
      apply (foldl_clearMain (columnStep i table)
               (λ r column,
                  existsb (λ reference,
                     compare_is_0 (mapString (Reference.ColumnMapping reference) column) "id"
                     && sequenced r (Reference.TableName reference))
                    (Table.References table))).
      - intros r column. apply columnStep_spec.
      - intros r column. apply existsb_pointwise. intros reference.
        f_equal. apply sequenced_keys, keysOf_clearMain. }
    rewrite Hfold. clear Hfold.
    assert (Hsame : corrected res table = table → alter (corrected res) i res = res).
    { intros Hc. transitivity (alter id i res); [|by apply list_alter_id].
      apply list_alter_ext; [|done]. intros x Hx. simpl. congruence. }
    assert (Hclear : corrected res table = Table.setMainUniqueIndexName "" table →
                     clearMain i res = alter (corrected res) i res).
    { intros Hc. apply list_alter_ext; [|done]. intros x Hx. congruence. }
    unfold corrected, revoked in Hsame, Hclear.
    destruct (0 <? len (Table.MainUniqueIndexName table))%nat; simpl in *.
    + destruct (existsb _ _); [by apply Hclear | symmetry; by apply Hsame].
    + symmetry. by apply Hsame.
  - transitivity (alter id i res); [symmetry; by apply list_alter_id|].
    apply list_alter_ext; [|done]. intros x Hx. congruence.
Qed.
Lemma tableLoop_spec result m : ∀ j res,
  j + m = length res →
  keysOf res = keysOf result →
  foldl tableStep res (seq j m)
  = (take j res ++ (corrected result <$> drop j res))%list.
Proof.
  induction m as [|m IH]; intros j res Hlen Hk; simpl.
  - rewrite take_ge, drop_ge by lia. by rewrite app_nil_r.
  - rewrite tableStep_spec.
    destruct (lookup_lt_is_Some_2 res j) as [table Hj]; [lia|].
    rewrite IH.
    + rewrite drop_alter_lt by lia.
      rewrite (take_S_r _ _ (corrected res table))
        by (by rewrite list_lookup_alter_eq, Hj).
      rewrite take_alter_ge by lia.
      rewrite (drop_S res table j Hj). simpl.
      rewrite <- app_assoc. simpl. do 2 f_equal.
      unfold corrected. by rewrite (revoked_keys res result).
    + rewrite length_alter. lia.
    + rewrite <- Hk. apply keysOf_alter, corrected_keeps.
Qed.

(** The pass rewrites every table by [corrected], computed on the tables
    as they were assembled. *)
Lemma correctionPass_spec result :
  correctionPass result = corrected result <$> result.
Proof.
  unfold correctionPass. by rewrite (tableLoop_spec result).
Qed.

Lemma correctionPass_lookup result i :
  correctionPass result !! i = corrected result <$> result !! i.
Proof. by rewrite correctionPass_spec, list_lookup_fmap. Qed.

Lemma sequenced_true result tableName :
  sequenced result tableName = true
  ↔ ∃ referencedTable, referencedTable ∈ result
      ∧ Table.Name referencedTable = tableName
      ∧ Table.PKSequence referencedTable ≠ "".
Proof.
  unfold sequenced. rewrite existsb_true.
  split; intros (rt & Hin & H); exists rt; (split; [done|]).
  - apply andb_true_iff in H as [H1 H2].
    apply compare_is_0_true in H1. apply negb_true_iff, compare_is_0_false in H2.
    done.
  - destruct H as [H1 H2]. apply andb_true_iff. split.
    + by apply compare_is_0_true.
    + by apply negb_true_iff, compare_is_0_false.
Qed.

Lemma mapString_id (m : gmap string string) (k : string) :
  mapString m k = "id" ↔ m !! k = Some "id".
Proof.
  unfold mapString. destruct (m !! k) as [v|]; simpl; [|done].
  split; congruence.
Qed.

(** [revoked] in the words of the description of the pass. *)
Lemma revoked_true result table :
  revoked result table = true
  ↔ Table.MainUniqueIndexName table ≠ ""
    ∧ ∃ index column reference referencedTable,
        Table.UniqueIndexes table !! Table.MainUniqueIndexName table = Some index
        ∧ column ∈ UniqueIndex.Columns index
        ∧ reference ∈ Table.References table
        ∧ Reference.ColumnMapping reference !! column = Some "id"
        ∧ referencedTable ∈ result
        ∧ Table.Name referencedTable = Reference.TableName reference
        ∧ Table.PKSequence referencedTable ≠ "".
Proof.
  unfold revoked. rewrite andb_true_iff, existsb_true.
  assert (Hlen : (0 <? len (Table.MainUniqueIndexName table))%nat = true
                 ↔ Table.MainUniqueIndexName table ≠ "").
  { rewrite Nat.ltb_lt, <- len_0. lia. }
  rewrite Hlen. clear Hlen. unfold mapIndex.
  split.
  - intros (Hmain & column & Hcol & Hex). split; [done|].
    apply existsb_true in Hex as (reference & Href & Hr).
    apply andb_true_iff in Hr as [Hid Hseq].
    apply compare_is_0_true, mapString_id in Hid.
    apply sequenced_true in Hseq as (rt & Hrt & Hname & Hpk).
    destruct (Table.UniqueIndexes table !! Table.MainUniqueIndexName table)
      as [index|]; simpl in Hcol; [|by apply elem_of_nil in Hcol].
    by exists index, column, reference, rt.
  - intros (Hmain & index & column & reference & rt & Hidx & Hcol & Href
            & Hid & Hrt & Hname & Hpk).
    split; [done|]. exists column. rewrite Hidx. simpl. split; [done|].
    apply existsb_true. exists reference. split; [done|].
    apply andb_true_iff. split.
    + by apply compare_is_0_true, mapString_id.
    + apply sequenced_true. by exists rt.
Qed.
End correction.


Lemma corrected_sameButMain (result : list Table.t) (table : Table.t) :
  sameButMain table (corrected result table).
Proof.
  unfold sameButMain, corrected.
  destruct (revoked result table); simpl; repeat split; auto.
Qed.

(** ** Claims on the correction pass *)

(** C1 (revocation): if a column of the index elected for [T] is mapped by
    one of the references of [T] to a column named [id], and a table of the
    assembled set bears the referenced name and has a non-empty primary-key
    sequence, then after the correction pass the [MainUniqueIndexName] of
    [T] is the empty string. *)
Theorem correctionPass_revokes (result : list Table.t) (i : nat) (T : Table.t)
    (index : UniqueIndex.t) (column : string) (reference : Reference.t)
    (referencedTable : Table.t) :
  result !! i = Some T →
  Table.MainUniqueIndexName T ≠ "" →
  Table.UniqueIndexes T !! Table.MainUniqueIndexName T = Some index →
  column ∈ UniqueIndex.Columns index →
  reference ∈ Table.References T →
  Reference.ColumnMapping reference !! column = Some "id" →
  referencedTable ∈ result →
  Table.Name referencedTable = Reference.TableName reference →
  Table.PKSequence referencedTable ≠ "" →
  Table.MainUniqueIndexName <$> correctionPass result !! i = Some "".
Proof.
  intros Hi Hmain Hidx Hcol Href Hid Hrt Hname Hpk.
  rewrite correctionPass_lookup, Hi. simpl. unfold corrected.
  assert (revoked result T = true) as ->; [|done].
  apply revoked_true. split; [done|].
  by exists index, column, reference, referencedTable.
Qed.

Lemma correctionPass_revokes_witness :
  Table.MainUniqueIndexName <$> correctionPass exFamilySet !! 1%nat = Some "".
Proof.
  apply (correctionPass_revokes exFamilySet 1 exMembers
           (UniqueIndex.mk "rhn_cfm_uq" ["channel_id"; "channel_family_id"])
           "channel_family_id"
           (Reference.mk "rhnchannelfamily" {["channel_family_id" := "id"]})
           exChannelFamily).
  - reflexivity.
  - simpl. discriminate.
  - reflexivity.
  - simpl. apply list_elem_of_further, list_elem_of_here.
  - simpl. apply list_elem_of_further, list_elem_of_here.
  - reflexivity.
  - apply list_elem_of_here.
  - reflexivity.
  - simpl. discriminate.
Defined.

(** C2 (non-revocation): if no column of the index elected for [T] is
    mapped by a reference of [T] to a column named [id] of a table that is in
    the assembled set with a non-empty primary-key sequence, the correction
    pass leaves [T], and so its [MainUniqueIndexName], as it was.  A
    referenced column that is not [id], a referenced table without sequence
    and a referenced table outside the set all satisfy the hypothesis. *)
Theorem correctionPass_keeps (result : list Table.t) (i : nat) (T : Table.t) :
  result !! i = Some T →
  (∀ index column reference referencedTable,
     Table.UniqueIndexes T !! Table.MainUniqueIndexName T = Some index →
     column ∈ UniqueIndex.Columns index →
     reference ∈ Table.References T →
     Reference.ColumnMapping reference !! column = Some "id" →
     referencedTable ∈ result →
     Table.Name referencedTable = Reference.TableName reference →
     Table.PKSequence referencedTable = "") →
  correctionPass result !! i = Some T
  ∧ Table.MainUniqueIndexName <$> correctionPass result !! i
    = Some (Table.MainUniqueIndexName T).
Proof.
  intros Hi Hno.
  assert (correctionPass result !! i = Some T) as ->; [|done].
  rewrite correctionPass_lookup, Hi. simpl. unfold corrected.
  destruct (revoked result T) eqn:E; [|done].
  apply revoked_true in E
    as (_ & index & column & reference & rt & ? & ? & ? & ? & ? & ? & Hpk).
  exfalso. apply Hpk. by apply (Hno index column reference rt).
Qed.

Lemma correctionPass_keeps_witness :
  correctionPass exChannelSet !! 2%nat = Some exChannel
  ∧ Table.MainUniqueIndexName <$> correctionPass exChannelSet !! 2%nat
    = Some "rhn_channel_label_uq".
Proof.
  apply (correctionPass_keeps exChannelSet 2 exChannel).
  - reflexivity.
  - intros index column reference referencedTable Hidx Hcol Href Hid Hrt Hname.
    vm_compute in Hidx. injection Hidx as <-.
    unfold exChannelSet in Hrt. simpl in Hcol, Href.
    split_elem_of Hrt; split_elem_of Href; simpl in Hname;
      try discriminate Hname; try reflexivity.
    simpl in Hcol. split_elem_of Hcol; vm_compute in Hid; discriminate Hid.
Defined.

(** C5 (idempotence): the correction pass applied twice yields the same
    sequence of tables as applied once. *)
Theorem correctionPass_idempotent (result : list Table.t) :
  correctionPass (correctionPass result) = correctionPass result.
Proof.
  rewrite (correctionPass_spec (correctionPass result)).
  rewrite (correctionPass_spec result).
  rewrite <- list_fmap_compose. apply list_fmap_ext. intros _ table _. simpl.
  unfold corrected at 1.
  rewrite (revoked_keys _ result) by apply keysOf_corrected.
  unfold corrected. destruct (revoked result table) eqn:E; [|by rewrite E].
  done.
Qed.

(** C8 (frame): the correction pass keeps the number and the order of the
    tables, and in each table every field but [MainUniqueIndexName]; that
    field is kept or cleared to the empty string. *)
Theorem correctionPass_frame (result : list Table.t) :
  length (correctionPass result) = length result
  ∧ Forall2 sameButMain result (correctionPass result).
Proof.
  rewrite correctionPass_spec. split; [by rewrite length_fmap|].
  apply Forall2_fmap_r, Forall_Forall2_diag, Forall_forall.
  intros table _. apply corrected_sameButMain.
Qed.

(** ** [findIndex] and the provisional election *)

Section election.
Implicit Types (ρ : mapRange) (indexes : gmap string UniqueIndex.t).

(** The outer loop of [findIndex] returns the empty string after passing
    over entries without the column, or the name of an entry with it. *)
Lemma indexLoop_cases (entries : list (string * UniqueIndex.t)) columnName :
  (indexLoop entries columnName = ""
   ∧ ∀ name index, (name, index) ∈ entries →
       columnName ∉ UniqueIndex.Columns index)
  ∨ (∃ index, (indexLoop entries columnName, index) ∈ entries
       ∧ columnName ∈ UniqueIndex.Columns index).
Proof.
  induction entries as [|[name index] rest IH]; simpl.
  - left. split; [done|]. intros ?? H. by apply elem_of_nil in H.
  - destruct (columnLoop (UniqueIndex.Columns index) columnName) eqn:E.
    + right. exists index. split; [apply list_elem_of_here|].
      by apply columnLoop_true.
    + assert (columnName ∉ UniqueIndex.Columns index) as Hnot.
      { rewrite <- columnLoop_true. by rewrite E. }
      destruct IH as [[-> Hnone]|(index' & Hin & Hc)].
      * left. split; [done|]. intros n idx [[= -> ->]|Hin]%elem_of_cons; eauto.
      * right. exists index'. split; [by apply list_elem_of_further|done].
Qed.

Lemma validRange_elem ρ indexes name index :
  validRange ρ → (name, index) ∈ ρ indexes ↔ indexes !! name = Some index.
Proof. intros Hρ. by rewrite (Hρ indexes), elem_of_map_to_list. Qed.

Lemma findIndex_cases ρ indexes columnName :
  validRange ρ →
  (findIndex ρ indexes columnName = ""
   ∧ ∀ name index, indexes !! name = Some index →
       columnName ∉ UniqueIndex.Columns index)
  ∨ (∃ index, indexes !! findIndex ρ indexes columnName = Some index
       ∧ columnName ∈ UniqueIndex.Columns index).
Proof.
  intros Hρ. unfold findIndex.
  destruct (indexLoop_cases (ρ indexes) columnName)
    as [[E Hnone]|(index & Hin & Hc)].
  - left. split; [done|]. intros name index Hl.
    apply (Hnone name). by apply validRange_elem.
  - right. exists index. split; [|done]. by apply (validRange_elem ρ).
Qed.

(** With at most one index on the column, the order does not matter. *)
Lemma findIndex_unique ρ ρ' indexes columnName :
  validRange ρ → validRange ρ' →
  (∀ n1 i1 n2 i2, indexes !! n1 = Some i1 → indexes !! n2 = Some i2 →
     columnName ∈ UniqueIndex.Columns i1 → columnName ∈ UniqueIndex.Columns i2 →
     n1 = n2) →
  findIndex ρ indexes columnName = findIndex ρ' indexes columnName.
Proof.
  intros Hρ Hρ' Huniq.
  destruct (findIndex_cases ρ indexes columnName Hρ)
    as [[E Hnone]|(index & Hl & Hc)];
  destruct (findIndex_cases ρ' indexes columnName Hρ')
    as [[E' Hnone']|(index' & Hl' & Hc')].
  - congruence.
  - by destruct (Hnone _ _ Hl').
  - by destruct (Hnone' _ _ Hl).
  - by apply (Huniq _ index _ index').
Qed.

Lemma ascending_valid : validSchedule ascending.
Proof. intros i columnName m. done. Qed.

Lemma descending_valid : validSchedule descending.
Proof. intros i columnName m. unfold descending. apply reverse_Permutation. Qed.

Lemma firstName_lookup (indexNames : list string) :
  (0 < length indexNames)%nat → indexNames !! 0%nat = Some (firstName indexNames).
Proof. destruct indexNames; simpl; [lia|done]. Qed.
End election.

(** ** Inversion of the monadic code *)

Lemma bind_Done {A B} (m : run A) (f : A → run B) (b : B) :
  m ≫= f = Done b → ∃ a, m = Done a ∧ f a = Done b.
Proof. destruct m as [|a]; [done|]. intros H. by exists a. Qed.

Lemma assembleTable_Done σ db i tableName T :
  assembleTable σ db i tableName = Done T →
  ∃ columns pkColumns pkSequence indexNames constraintNames,
    readColumnNames db tableName = Done columns
    ∧ readPKColumnNames db tableName = Done pkColumns
    ∧ readPKSequence db tableName = Done pkSequence
    ∧ readUniqueIndexNames db tableName = Done indexNames
    ∧ indexesLoop db indexNames ∅ = Done (Table.UniqueIndexes T)
    ∧ readReferenceConstraintNames db tableName = Done constraintNames
    ∧ referencesLoop db tableName constraintNames [] = Done (Table.References T)
    ∧ T = Table.mk tableName columns (pkColumnMapOf pkColumns) pkSequence
            (Table.UniqueIndexes T)
            (mainUniqueIndexName (σ i "label") (σ i "name") indexNames
               (Table.UniqueIndexes T))
            (Table.References T).
Proof.
  unfold assembleTable. intros H.
  apply bind_Done in H as (columns & H1 & H).
  apply bind_Done in H as (pkColumns & H2 & H).
  apply bind_Done in H as (pkSequence & H3 & H).
  apply bind_Done in H as (indexNames & H4 & H).
  apply bind_Done in H as (indexes & H5 & H).
  apply bind_Done in H as (constraintNames & H6 & H).
  apply bind_Done in H as (references & H7 & H).
  injection H as <-. simpl.
  by exists columns, pkColumns, pkSequence, indexNames, constraintNames.
Qed.

Lemma assembleTable_main σ db i tableName T indexNames :
  assembleTable σ db i tableName = Done T →
  readUniqueIndexNames db tableName = Done indexNames →
  Table.MainUniqueIndexName T
  = mainUniqueIndexName (σ i "label") (σ i "name") indexNames (Table.UniqueIndexes T).
Proof.
  intros (?&?&?& names &?&?&?&?& Hn &?&?&?& HT)%assembleTable_Done Hnames.
  rewrite Hnames in Hn. injection Hn as ->. by rewrite HT at 1.
Qed.

(** ** Claims on the provisional election *)

(** C7: a table for which the catalog lists no unique index is assembled
    with the empty string as [MainUniqueIndexName], and a table for which it
    lists exactly one is assembled with the name of that index. *)
Theorem provisional_none_or_single σ db i tableName T indexNames :
  assembleTable σ db i tableName = Done T →
  readUniqueIndexNames db tableName = Done indexNames →
  (indexNames = [] → Table.MainUniqueIndexName T = "")
  ∧ (∀ indexName, indexNames = [indexName] →
       Table.MainUniqueIndexName T = indexName).
Proof.
  intros HT Hnames. rewrite (assembleTable_main _ _ _ _ _ _ HT Hnames).
  split.
  - by intros ->.
  - by intros indexName ->.
Qed.

Lemma provisional_none_or_single_witness :
  Table.MainUniqueIndexName (tableOf (assembleTable ascending exDB 1 "rhnchannelarch"))
  = ""
  ∧ Table.MainUniqueIndexName
      (tableOf (assembleTable ascending exDB 3 "rhnchannelfamily"))
    = "rhn_channel_family_label_uq".
Proof.
  split.
  - refine (proj1 (provisional_none_or_single ascending exDB 1 "rhnchannelarch"
                     _ [] _ _) _).
    + vm_compute. reflexivity.
    + vm_compute. reflexivity.
    + reflexivity.
  - refine (proj2 (provisional_none_or_single ascending exDB 3 "rhnchannelfamily"
                     _ ["rhn_channel_family_label_uq"] _ _) _ _).
    + vm_compute. reflexivity.
    + vm_compute. reflexivity.
    + reflexivity.
Defined.

(** C3: for a table with more than one unique index, none of them with an
    empty name: if some unique index has a column named [label], the index
    elected provisionally is one with a column [label], whatever the order
    of [range]; if none has but some unique index has a column named [name],
    the index elected is one with a column [name]. *)
Theorem provisional_prefers_label σ db i tableName T indexNames :
  validSchedule σ →
  assembleTable σ db i tableName = Done T →
  readUniqueIndexNames db tableName = Done indexNames →
  (1 < length indexNames)%nat →
  Table.UniqueIndexes T !! "" = None →
  ((∃ name index, Table.UniqueIndexes T !! name = Some index
                  ∧ "label" ∈ UniqueIndex.Columns index) →
   ∃ index, Table.UniqueIndexes T !! Table.MainUniqueIndexName T = Some index
            ∧ "label" ∈ UniqueIndex.Columns index)
  ∧ ((∀ name index, Table.UniqueIndexes T !! name = Some index →
                    "label" ∉ UniqueIndex.Columns index) →
     (∃ name index, Table.UniqueIndexes T !! name = Some index
                    ∧ "name" ∈ UniqueIndex.Columns index) →
     ∃ index, Table.UniqueIndexes T !! Table.MainUniqueIndexName T = Some index
              ∧ "name" ∈ UniqueIndex.Columns index).
Proof.
  intros Hσ HT Hnames Hlen Hnamed.
  rewrite (assembleTable_main _ _ _ _ _ _ HT Hnames).
  unfold mainUniqueIndexName.
  destruct (Nat.eqb_spec (length indexNames) 1) as [|_]; [lia|].
  destruct (Nat.ltb_spec 1 (length indexNames)) as [_|]; [|lia].
  assert (Hkey : ∀ name index, Table.UniqueIndexes T !! name = Some index →
                   (len name =? 0)%nat = false).
  { intros name index Hl. apply Nat.eqb_neq. rewrite len_0. congruence. }
  destruct (findIndex_cases (σ i "label") (Table.UniqueIndexes T) "label" (Hσ _ _))
    as [[El Hnone]|(index & Hl & Hc)].
  - rewrite El. simpl. split.
    + intros (name & index & Hl & Hc). by destruct (Hnone _ _ Hl).
    + intros _ (name & index & Hl & Hc).
      destruct (findIndex_cases (σ i "name") (Table.UniqueIndexes T) "name" (Hσ _ _))
        as [[En Hnone']|(index' & Hl' & Hc')].
      * by destruct (Hnone' _ _ Hl).
      * rewrite (Hkey _ _ Hl'). by exists index'.
  - rewrite (Hkey _ _ Hl). split.
    + intros _. by exists index.
    + intros Hnone. by destruct (Hnone _ _ Hl).
Qed.

Lemma provisional_prefers_label_witness :
  let T := tableOf (assembleTable descending exDB 0 "rhnchannel") in
  ∃ index,
    Table.UniqueIndexes T !! Table.MainUniqueIndexName T = Some index
    ∧ "label" ∈ UniqueIndex.Columns index.
Proof.
  apply (provisional_prefers_label descending exDB 0 "rhnchannel" _
           ["rhn_channel_name_uq"; "rhn_channel_label_uq"]).
  - apply descending_valid.
  - vm_compute. reflexivity.
  - vm_compute. reflexivity.
  - simpl. lia.
  - vm_compute. reflexivity.
  - exists "rhn_channel_label_uq", (UniqueIndex.mk "rhn_channel_label_uq" ["label"]).
    split; [vm_compute; reflexivity | apply list_elem_of_here].
Defined.

(** C10: for a table with more than one unique index, none of them with a
    column named [label] or [name], the index elected provisionally is the
    first name in the order in which the catalog listed the unique indexes,
    whatever the order of [range]. *)
Theorem provisional_falls_back_to_first σ db i tableName T indexNames :
  validSchedule σ →
  assembleTable σ db i tableName = Done T →
  readUniqueIndexNames db tableName = Done indexNames →
  (1 < length indexNames)%nat →
  (∀ name index, Table.UniqueIndexes T !! name = Some index →
     ("label" ∉ UniqueIndex.Columns index) ∧ ("name" ∉ UniqueIndex.Columns index)) →
  indexNames !! 0%nat = Some (Table.MainUniqueIndexName T).
Proof.
  intros Hσ HT Hnames Hlen Hnone.
  rewrite (assembleTable_main _ _ _ _ _ _ HT Hnames).
  unfold mainUniqueIndexName.
  destruct (Nat.eqb_spec (length indexNames) 1) as [|_]; [lia|].
  destruct (Nat.ltb_spec 1 (length indexNames)) as [_|]; [|lia].
  destruct (findIndex_cases (σ i "label") (Table.UniqueIndexes T) "label" (Hσ _ _))
    as [[-> _]|(index & Hl & Hc)]; [|by destruct (Hnone _ _ Hl)].
  destruct (findIndex_cases (σ i "name") (Table.UniqueIndexes T) "name" (Hσ _ _))
    as [[-> _]|(index & Hl & Hc)]; [|by destruct (Hnone _ _ Hl)].
  simpl. apply firstName_lookup. lia.
Qed.

Lemma provisional_falls_back_to_first_witness :
  ["rhn_errata_advisory_uq"; "rhn_errata_advname_uq"] !! 0%nat
  = Some (Table.MainUniqueIndexName
            (tableOf (assembleTable descending exDB 5 "rhnerrata"))).
Proof.
  apply (provisional_falls_back_to_first descending exDB 5 "rhnerrata").
  - apply descending_valid.
  - vm_compute. reflexivity.
  - vm_compute. reflexivity.
  - simpl. lia.
  - intros name index Hl.
    apply (validRange_elem (ascending 0%nat "") _ _ _ (ascending_valid _ _)) in Hl.
    unfold ascending in Hl.
    set (entries := map_to_list _) in Hl. vm_compute in entries. subst entries.
    split_elem_of Hl; split; intros Hc; simpl in Hc; split_elem_of Hc.
Defined.

(** ** Failures of the catalog *)

(** A cursor that broke off is read like one that reached its end. *)
Lemma queryStrings_ignores_break {A} (rows : list (scanned A)) (broken : bool) :
  queryStrings (QueryRows (mkRows rows broken))
  = queryStrings (QueryRows (mkRows rows false)).
Proof. reflexivity. Qed.

(** Once [db.Query] returned a cursor, the two readers of a single value
    return, whatever [Next] and [Scan] report. *)
Lemma queryFirst_returns (rows : Rows string) :
  ∃ name, queryFirst (QueryRows rows) = Done name.
Proof. simpl. eauto. Qed.

(** An error of [rows.Scan] ends the run in the readers of a slice, and is
    dropped in the readers of a single value. *)
Lemma scan_error_fatal_in_loops_only (rest : list (scanned string)) (broken : bool) :
  queryStrings (QueryRows (mkRows (ScanError :: rest) broken)) = Fatal
  ∧ queryFirst (QueryRows (mkRows (ScanError :: rest) broken)) = Done "".
Proof. split; reflexivity. Qed.

Lemma assembleLoop_names σ db tableNames : ∀ i acc result,
  assembleLoop σ db i tableNames acc = Done result →
  Table.Name <$> result = ((Table.Name <$> acc) ++ tableNames)%list.
Proof.
  induction tableNames as [|tableName rest IH]; intros i acc result; simpl.
  - intros [= <-]. by rewrite app_nil_r.
  - intros (T & HT & Hrest)%bind_Done. rewrite (IH _ _ _ Hrest).
    rewrite fmap_app. simpl. rewrite <- app_assoc. simpl. do 2 f_equal.
    apply assembleTable_Done in HT as (?&?&?&?&?&?&?&?&?&?&?&?& ->). done.
Qed.

(** A run that returns covers every target table, in order. *)
Lemma readTablesOf_names σ db tableNames result :
  readTablesOf σ db tableNames = Done result →
  Table.Name <$> result = tableNames.
Proof.
  unfold readTablesOf. intros (r & Hr & [= <-])%bind_Done.
  apply assembleLoop_names in Hr. simpl in Hr. rewrite <- Hr.
  rewrite correctionPass_spec, <- list_fmap_compose.
  apply list_fmap_ext. intros _ T _. simpl. apply corrected_keeps.
Qed.

(** An error of [db.Query] in a statement about a target table ends the
    run: this much of the abort on failure the code has. *)
Lemma assembleTable_query_error σ db i tableName :
  columnNamesQuery db tableName = QueryError
  ∨ pkColumnNamesQuery db tableName = QueryError
  ∨ pkSequenceQuery db tableName = QueryError
  ∨ uniqueIndexNamesQuery db tableName = QueryError
  ∨ referenceConstraintNamesQuery db tableName = QueryError →
  assembleTable σ db i tableName = Fatal.
Proof.
  unfold assembleTable, readColumnNames, readPKColumnNames, readPKSequence,
    readUniqueIndexNames, readReferenceConstraintNames.
  intros H.
  destruct (queryStrings (columnNamesQuery db tableName)) eqn:E1; [done|]; simpl.
  destruct (queryStrings (pkColumnNamesQuery db tableName)) eqn:E2; [done|]; simpl.
  destruct (queryFirst (pkSequenceQuery db tableName)) eqn:E3; [done|]; simpl.
  destruct (queryStrings (uniqueIndexNamesQuery db tableName)) eqn:E4; [done|]; simpl.
  destruct (indexesLoop db _ ∅); [done|]; simpl.
  destruct (queryStrings (referenceConstraintNamesQuery db tableName)) eqn:E5;
    [done|]; simpl.
  destruct H as [H|[H|[H|[H|H]]]]; rewrite H in *; discriminate.
Qed.

Lemma assembleLoop_fatal σ db tableName tableNames : ∀ i acc,
  (∀ j, assembleTable σ db j tableName = Fatal) →
  tableName ∈ tableNames →
  assembleLoop σ db i tableNames acc = Fatal.
Proof.
  induction tableNames as [|name rest IH]; intros i acc Hf Hin.
  - by apply elem_of_nil in Hin.
  - simpl. apply elem_of_cons in Hin as [<-|Hin].
    + by rewrite Hf.
    + destruct (assembleTable σ db i name); [done|]. simpl. by apply IH.
Qed.

Lemma ReadTables_query_error σ db tableName :
  tableName ∈ readTableNames db →
  columnNamesQuery db tableName = QueryError
  ∨ pkColumnNamesQuery db tableName = QueryError
  ∨ pkSequenceQuery db tableName = QueryError
  ∨ uniqueIndexNamesQuery db tableName = QueryError
  ∨ referenceConstraintNamesQuery db tableName = QueryError →
  ReadTables σ db = Fatal.
Proof.
  intros Hin Herr. unfold ReadTables, readTablesOf.
  rewrite (assembleLoop_fatal σ db tableName); [done| |done].
  intros j. by apply assembleTable_query_error.
Qed.

(** C9, at the failing input: the cursor of [readUniqueIndexNames] breaks
    off after the first of the two unique indexes of [rhnchannel], yet
    [ReadTables] does not end in [log.Fatal]; it returns [rhnchannel]
    assembled from the one index that was fetched, elected on [name] where
    the run on the full answers elects the index on [label].  Likewise, when
    the cursor of [readReferencedTable] breaks off, the run returns thirteen
    tables, [rhnchannelfamilymembers] with a reference to the table named by
    the empty string and with [rhn_cfm_uq] still elected, which the run on
    the full answers revokes. *)
Theorem ReadTables_swallows_broken_cursor :
  (failedResult (uniqueIndexNamesQuery exTruncatedDB "rhnchannel")
   ∧ ReadTables ascending exTruncatedDB ≠ Fatal
   ∧ length (mainNames (ReadTables ascending exTruncatedDB)) = 13%nat
   ∧ mainNames (ReadTables ascending exTruncatedDB) !! 0%nat
     = Some "rhn_channel_name_uq"
   ∧ mainNames (ReadTables ascending exDB) !! 0%nat = Some "rhn_channel_label_uq")
  ∧ (failedResult (referencedTableQuery exBrokenDB "rhn_cfm_cfid_fk")
     ∧ ReadTables ascending exBrokenDB ≠ Fatal
     ∧ length (mainNames (ReadTables ascending exBrokenDB)) = 13%nat
     ∧ referencedNames (ReadTables ascending exBrokenDB) !! 4%nat = Some [""]
     ∧ mainNames (ReadTables ascending exBrokenDB) !! 4%nat = Some "rhn_cfm_uq"
     ∧ mainNames (ReadTables ascending exDB) !! 4%nat = Some "").
Proof.
  split.
  - split; [right; reflexivity|].
    split; [vm_compute; discriminate|].
    repeat split; vm_compute; reflexivity.
  - split; [right; reflexivity|].
    split; [vm_compute; discriminate|].
    repeat split; vm_compute; reflexivity.
Qed.

(** ** The statement of [readPKSequence] *)

Lemma cutFirstMatch_leftmost_only :
  normalConstraintName "rhn_channel_id_pk" = "rhnchannel"
  ∧ normalSequenceName "rhn_channel_id_seq" = "rhnchannel"
  ∧ normalConstraintName "rhn_pkey_audit_pk" = "rhnauditpk"
  ∧ normalSequenceName "rhn_seq_audit_seq" = "rhnauditseq".
Proof. repeat split. Qed.

Lemma elem_of_cteSequences cat name :
  name ∈ cteSequences cat
  ↔ ∃ s, s ∈ Catalog.sequences cat ∧ Catalog.sequence_schema s = "public"
         ∧ name = Catalog.sequence_name s.
Proof.
  unfold cteSequences. rewrite list_elem_of_bind. split.
  - intros (s & Hin & Hs). exists s.
    destruct (String.eqb_spec (Catalog.sequence_schema s) "public");
      [|by apply elem_of_nil in Hin].
    by apply list_elem_of_singleton in Hin.
  - intros (s & Hs & Hpub & ->). exists s. split; [|done].
    rewrite (proj2 (String.eqb_eq _ _) Hpub). apply list_elem_of_here.
Qed.

Lemma idConstraintCond_true tableName tc kcu :
  idConstraintCond tableName tc kcu = true
  ↔ Catalog.constraint_name tc = Catalog.kcu_constraint_name kcu
    ∧ Catalog.constraint_schema tc = "public"
    ∧ Catalog.constraint_type tc = "PRIMARY KEY"
    ∧ Catalog.ordinal_position kcu = 1%nat
    ∧ Catalog.column_name kcu = "id"
    ∧ Catalog.table_name tc = tableName.
Proof.
  unfold idConstraintCond.
  rewrite !andb_true_iff, !String.eqb_eq, Nat.eqb_eq. tauto.
Qed.

Lemma elem_of_cteIdConstraints cat tableName name :
  name ∈ cteIdConstraints cat tableName
  ↔ ∃ tc kcu, tc ∈ Catalog.table_constraints cat
              ∧ kcu ∈ Catalog.key_column_usage cat
              ∧ idConstraintCond tableName tc kcu = true
              ∧ name = Catalog.constraint_name tc.
Proof.
  unfold cteIdConstraints. rewrite list_elem_of_bind. split.
  - intros (tc & Hin & Htc). apply list_elem_of_bind in Hin as (kcu & Hin & Hkcu).
    exists tc, kcu. destruct (idConstraintCond tableName tc kcu);
      [|by apply elem_of_nil in Hin].
    by apply list_elem_of_singleton in Hin.
  - intros (tc & kcu & Htc & Hkcu & Hc & ->). exists tc. split; [|done].
    apply list_elem_of_bind. exists kcu. split; [|done].
    rewrite Hc. apply list_elem_of_here.
Qed.

Lemma elem_of_pkSequenceRows cat tableName name :
  name ∈ pkSequenceRows cat tableName
  ↔ ∃ tc kcu s, matchingKey cat tableName tc kcu s
                ∧ name = Catalog.sequence_name s.
Proof.
  unfold pkSequenceRows, matchingKey. rewrite list_elem_of_bind. split.
  - intros (cn & Hin & Hcn). apply list_elem_of_bind in Hin as (sn & Hin & Hsn).
    apply elem_of_cteIdConstraints in Hcn as (tc & kcu & Htc & Hkcu & Hc & ->).
    apply elem_of_cteSequences in Hsn as (s & Hs & Hpub & ->).
    apply idConstraintCond_true in Hc as (? & ? & ? & ? & ? & ?).
    destruct (String.eqb_spec (normalConstraintName (Catalog.constraint_name tc))
                (normalSequenceName (Catalog.sequence_name s)));
      [|by apply elem_of_nil in Hin].
    apply list_elem_of_singleton in Hin. exists tc, kcu, s. by repeat split.
  - intros (tc & kcu & s & (Htc & Hkcu & Hs & ? & ? & ? & ? & ? & ? & ? & Hn) & ->).
    exists (Catalog.constraint_name tc). split.
    + apply list_elem_of_bind. exists (Catalog.sequence_name s). split.
      * rewrite (proj2 (String.eqb_eq _ _) Hn). apply list_elem_of_here.
      * apply elem_of_cteSequences. by exists s.
    + apply elem_of_cteIdConstraints. exists tc, kcu. repeat split; try done.
      by apply idConstraintCond_true.
Qed.

(** C4, as stated, fails, twice.  The primary key of the target table
    [rhnchannelproduct] is the pair ([id], [product]), not the single column
    [id], and [readPKSequence] returns the sequence all the same.  The
    primary key of the target table [rhnchecksumtype] is the column [label];
    a foreign key of another table bears the same constraint name and is on
    a column [id], and [readPKSequence] returns the sequence again. *)
Lemma readPKSequence_not_single_id_key :
  (readPKSequence (withCatalog exCompositeCatalog exDB) "rhnchannelproduct"
   = Done "rhn_channelprod_id_seq"
   ∧ primaryKeyColumns exCompositeCatalog "rhnchannelproduct" = ["id"; "product"]
   ∧ spec_pk_is_single_id exCompositeCatalog "rhnchannelproduct" = false)
  ∧ (readPKSequence (withCatalog exSameNameCatalog exDB) "rhnchecksumtype"
     = Done "rhn_checksumtype_seq"
     ∧ primaryKeyColumns exSameNameCatalog "rhnchecksumtype" = ["label"]
     ∧ spec_pk_is_single_id exSameNameCatalog "rhnchecksumtype" = false)
  ∧ "rhnchannelproduct" ∈ readTableNames exDB
  ∧ "rhnchecksumtype" ∈ readTableNames exDB.
Proof.
  repeat split; try reflexivity.
  - unfold readTableNames. apply list_elem_of_In. simpl. tauto.
  - unfold readTableNames. apply list_elem_of_In. simpl. tauto.
Qed.

(** C4, amended: when the statement is answered, in whatever order of rows,
    [readPKSequence] returns a non-empty name only if it is the name of a
    sequence of schema [public], some [PRIMARY KEY] constraint of the table
    in schema [public] shares its constraint name with a row of
    [key_column_usage] for a column [id] at position 1 (a row of this table
    or of another: the join is on the constraint name alone, and further key
    columns may exist), and the constraint name without the leftmost match of
    [(_id)?_pk(ey)?] and the sequence name without the leftmost match of
    [(_id)?_seq] are equal once all underscores are dropped; when no such
    constraint, row and sequence exist it returns the empty string. *)
Theorem readPKSequence_matches (cat : Catalog.t) (db : DB) (tableName : string)
    (rows : list string) :
  rows ≡ₚ pkSequenceRows cat tableName →
  pkSequenceQuery db tableName = answered rows →
  ∃ name, readPKSequence db tableName = Done name
    ∧ (name ≠ "" →
       ∃ tc kcu s, matchingKey cat tableName tc kcu s
                   ∧ name = Catalog.sequence_name s)
    ∧ ((∀ tc kcu s, ¬ matchingKey cat tableName tc kcu s) → name = "").
Proof.
  intros Hperm Hq. unfold readPKSequence. rewrite Hq. simpl.
  destruct rows as [|row rest]; simpl.
  - exists "". by repeat split.
  - exists row. split; [done|].
    assert (row ∈ pkSequenceRows cat tableName) as Hin.
    { rewrite <- Hperm. apply list_elem_of_here. }
    apply elem_of_pkSequenceRows in Hin as (tc & kcu & s & Hm & ->).
    split.
    + intros _. by exists tc, kcu, s.
    + intros Hnone. by destruct (Hnone tc kcu s).
Qed.

Lemma readPKSequence_matches_witness :
  ∃ name, readPKSequence (withCatalog exChannelCatalog exDB) "rhnchannel" = Done name
    ∧ (name ≠ "" →
       ∃ tc kcu s, matchingKey exChannelCatalog "rhnchannel" tc kcu s
                   ∧ name = Catalog.sequence_name s)
    ∧ ((∀ tc kcu s, ¬ matchingKey exChannelCatalog "rhnchannel" tc kcu s) →
       name = "").
Proof.
  apply (readPKSequence_matches exChannelCatalog
           (withCatalog exChannelCatalog exDB) "rhnchannel" ["rhn_channel_id_seq"]).
  - vm_compute. reflexivity.
  - vm_compute. reflexivity.
Defined.

(** * Further properties of the readers, the assembly and the pass *)

(** ** The readers *)

Lemma scanLoop_Done {A} (rows : list (scanned A)) : ∀ (acc l : list A),
  scanLoop rows acc = Done l
  ↔ ∃ values, rows = Scanned <$> values ∧ l = (acc ++ values)%list.
Proof.
  induction rows as [|[x|] rest IH]; intros acc l; simpl.
  - split.
    + intros [= <-]. exists []. by rewrite app_nil_r.
    + intros (values & Hv & ->). destruct values; [|done]. by rewrite app_nil_r.
  - rewrite IH. split.
    + intros (values & -> & ->). exists (x :: values).
      by rewrite <- app_assoc.
    + intros (values & Hv & ->). destruct values as [|y values]; [done|].
      injection Hv as -> ->. exists values. by rewrite <- app_assoc.
  - split; [done|]. intros (values & Hv & _). by destruct values.
Qed.

Lemma scanLoop_Fatal {A} (rows : list (scanned A)) : ∀ (acc : list A),
  scanLoop rows acc = Fatal ↔ ScanError ∈ rows.
Proof.
  induction rows as [|[x|] rest IH]; intros acc; simpl.
  - split; [done|]. by intros ?%elem_of_nil.
  - rewrite IH, elem_of_cons. split; [by right | by intros [?|?]].
  - split; [intros _; apply list_elem_of_here | done].
Qed.

(** X1: The five readers of a slice ([readColumnNames], [readPKColumnNames],
    [readUniqueIndexNames], [readIndexColumns] and
    [readReferenceConstraintNames], which share this body): the reader
    returns [l] exactly when [db.Query] gave a cursor whose fetched rows all
    scan, to the values [l] in order, whether or not the cursor broke off
    after them; it ends in [log.Fatal] exactly when [db.Query] failed or a
    fetched row does not scan. *)
Theorem queryStrings_outcome {A} (q : queryResult A) :
  (∀ l, queryStrings q = Done l
        ↔ ∃ broken, q = QueryRows (mkRows (Scanned <$> l) broken))
  ∧ (queryStrings q = Fatal
     ↔ q = QueryError ∨ ∃ rows, q = QueryRows rows ∧ ScanError ∈ fetched rows).
Proof.
  split.
  - intros l. destruct q as [|[rows broken]]; simpl.
    + split; [done|]. by intros [? ?].
    + rewrite scanLoop_Done. simpl. split.
      * intros (values & -> & ->). by exists broken.
      * intros (broken' & [= -> _]). by exists l.
  - destruct q as [|rows]; simpl.
    + split; [by left | done].
    + rewrite scanLoop_Fatal. split.
      * intros H. right. by exists rows.
      * intros [?|(rows' & [= <-] & H)]; done.
Qed.

Lemma scanMapLoop_answered (rows : list (string * string)) :
  ∀ acc : gmap string string,
  scanMapLoop (Scanned <$> rows) acc = Done (list_to_map (reverse rows) ∪ acc).
Proof.
  induction rows as [|[column foreign] rest IH]; intros acc; simpl.
  - by rewrite (left_id_L ∅ (∪)).
  - rewrite IH, reverse_cons, list_to_map_app. simpl.
    rewrite <- (assoc_L (∪)). do 2 f_equal.
    rewrite insert_empty. apply insert_union_singleton_l.
Qed.

(** X2: [readReferenceConstraints]: when the statement is answered with [rows],
    the map has a key for exactly the local columns of the rows, and where
    several rows bear the same local column the last of them decides the
    referenced column. *)
Theorem readReferenceConstraints_last_row_wins (db : DB)
    (tableName constraintName : string) (rows : list (string * string)) :
  referenceConstraintsQuery db tableName constraintName = answered rows →
  ∃ columnMap, readReferenceConstraints db tableName constraintName = Done columnMap
    ∧ (∀ column, columnMap !! column = None ↔ column ∉ rows.*1)
    ∧ (∀ before column foreign after,
         rows = (before ++ (column, foreign) :: after)%list →
         column ∉ after.*1 →
         columnMap !! column = Some foreign).
Proof.
  intros Hq. unfold readReferenceConstraints. rewrite Hq. simpl.
  rewrite scanMapLoop_answered, (right_id_L ∅ (∪)).
  eexists. split; [done|]. split.
  - intros column. rewrite <- not_elem_of_list_to_map.
    rewrite fmap_reverse, elem_of_reverse. done.
  - intros before column foreign after -> Hnot.
    rewrite reverse_app, reverse_cons, <- app_assoc, list_to_map_app.
    apply lookup_union_Some_raw. right. split.
    + apply not_elem_of_list_to_map. by rewrite fmap_reverse, elem_of_reverse.
    + simpl. apply lookup_insert_eq.
Qed.

Lemma readReferenceConstraints_last_row_wins_witness :
  ∃ columnMap,
    readReferenceConstraints exRepeatedColumnDB "rhnchannel" "rhn_channel_org_fk"
    = Done columnMap
    ∧ columnMap !! "org_id" = Some "org_key"
    ∧ columnMap !! "channel_arch_id" = Some "id"
    ∧ columnMap !! "label" = None.
Proof.
  destruct (readReferenceConstraints_last_row_wins exRepeatedColumnDB "rhnchannel"
              "rhn_channel_org_fk"
              [("org_id", "id"); ("channel_arch_id", "id"); ("org_id", "org_key")])
    as (columnMap & Hread & Hnone & Hlast).
  - vm_compute. reflexivity.
  - exists columnMap. split; [exact Hread|]. split; [|split].
    + apply (Hlast [("org_id", "id"); ("channel_arch_id", "id")] "org_id" "org_key" []).
      * reflexivity.
      * simpl. intros H. by apply elem_of_nil in H.
    + apply (Hlast [("org_id", "id")] "channel_arch_id" "id" [("org_id", "org_key")]).
      * reflexivity.
      * simpl. intros H. apply list_elem_of_singleton in H. discriminate H.
    + apply Hnone. simpl. intros H. split_elem_of H.
Defined.

Lemma pkColumnMap_fold (pkColumns : list string) : ∀ (acc : gmap string bool) column,
  foldl (λ m c, <[c := true]> m) acc pkColumns !! column
  = if decide (column ∈ pkColumns) then Some true else acc !! column.
Proof.
  induction pkColumns as [|c rest IH]; intros acc column; cbn [foldl].
  - rewrite decide_False; [done|]. by intros ?%elem_of_nil.
  - rewrite IH.
    destruct (decide (column ∈ rest)) as [Hin|Hnot].
    + rewrite decide_True; [done|]. by apply list_elem_of_further.
    + destruct (decide (column = c)) as [->|Hne].
      * rewrite lookup_insert_eq, decide_True; [done|]. apply list_elem_of_here.
      * rewrite lookup_insert_ne by done. rewrite decide_False; [done|].
        by intros [?|?]%elem_of_cons.
Qed.

(** X3: The map [pkColumnMap] built in [ReadTables] is the set of the
    primary-key columns: a column is mapped to [true] when the catalog lists
    it, is absent otherwise, and is never mapped to [false]; listing a
    column twice changes nothing. *)
Theorem pkColumnMap_is_set (pkColumns : list string) (column : string) :
  (pkColumnMapOf pkColumns !! column = Some true ↔ column ∈ pkColumns)
  ∧ (pkColumnMapOf pkColumns !! column = None ↔ column ∉ pkColumns)
  ∧ pkColumnMapOf pkColumns !! column ≠ Some false.
Proof.
  unfold pkColumnMapOf. rewrite pkColumnMap_fold, lookup_empty.
  case_decide; naive_solver.
Qed.

(** ** The assembly of a table *)

Lemma indexesLoop_lookup db (indexNames : list string) :
  ∀ (acc indexes : gmap string UniqueIndex.t),
  indexesLoop db indexNames acc = Done indexes →
  ∀ name,
    (name ∈ indexNames →
     ∃ columns, readIndexColumns db name = Done columns
                ∧ indexes !! name = Some (UniqueIndex.mk name columns))
    ∧ (name ∉ indexNames → indexes !! name = acc !! name).
Proof.
  induction indexNames as [|indexName rest IH]; intros acc indexes; simpl.
  - intros [= <-] name. split; [by intros ?%elem_of_nil | done].
  - intros (columns & Hcols & Hrest)%bind_Done name.
    destruct (IH _ _ Hrest name) as [Hin Hout].
    destruct (decide (name ∈ rest)) as [Hr|Hr].
    + split; [by intros _; apply Hin|].
      intros Hnot. exfalso. apply Hnot. by apply list_elem_of_further.
    + split.
      * intros [->|?]%elem_of_cons; [|done]. exists columns. split; [done|].
        rewrite (Hout Hr). apply lookup_insert_eq.
      * intros Hnot. rewrite (Hout Hr). apply lookup_insert_ne.
        intros ->. apply Hnot, list_elem_of_here.
Qed.

(** X4: The map [UniqueIndexes] of an assembled table has an entry exactly for
    the index names that the catalog listed for the table; the entry of a
    name bears that name and the columns that [readIndexColumns] returns for
    it. *)
Theorem assembleTable_unique_indexes σ db i tableName T indexNames :
  assembleTable σ db i tableName = Done T →
  readUniqueIndexNames db tableName = Done indexNames →
  ∀ name index,
    Table.UniqueIndexes T !! name = Some index
    ↔ name ∈ indexNames
      ∧ UniqueIndex.Name index = name
      ∧ readIndexColumns db name = Done (UniqueIndex.Columns index).
Proof.
  intros (?&?&?& names &?&?&?&?& Hn & Hloop &?&?&?)%assembleTable_Done Hnames.
  rewrite Hnames in Hn. injection Hn as <-.
  intros name index. destruct (indexesLoop_lookup _ _ _ _ Hloop name) as [Hin Hout].
  split.
  - intros Hl. destruct (decide (name ∈ indexNames)) as [Hd|Hd].
    + destruct (Hin Hd) as (columns & Hc & Hl'). rewrite Hl in Hl'.
      injection Hl' as ->. done.
    + rewrite (Hout Hd), lookup_empty in Hl. done.
  - intros (Hd & Hname & Hcols). destruct (Hin Hd) as (columns & Hc & ->).
    rewrite Hc in Hcols. injection Hcols as ->. f_equal.
    destruct index as [n c]. simpl in *. by subst.
Qed.

Lemma assembleTable_unique_indexes_witness :
  Table.UniqueIndexes (tableOf (assembleTable ascending exDB 0 "rhnchannel"))
    !! "rhn_channel_label_uq"
  = Some (UniqueIndex.mk "rhn_channel_label_uq" ["label"])
  ↔ "rhn_channel_label_uq" ∈ ["rhn_channel_name_uq"; "rhn_channel_label_uq"]
    ∧ UniqueIndex.Name (UniqueIndex.mk "rhn_channel_label_uq" ["label"])
      = "rhn_channel_label_uq"
    ∧ readIndexColumns exDB "rhn_channel_label_uq"
      = Done (UniqueIndex.Columns (UniqueIndex.mk "rhn_channel_label_uq" ["label"])).
Proof.
  apply (assembleTable_unique_indexes ascending exDB 0 "rhnchannel").
  - vm_compute. reflexivity.
  - vm_compute. reflexivity.
Defined.

Lemma referencesLoop_Done db tableName (constraintNames : list string) :
  ∀ (acc references : list Reference.t),
  referencesLoop db tableName constraintNames acc = Done references →
  ∃ new, references = (acc ++ new)%list
    ∧ Forall2 (λ constraintName reference,
         readReferencedTable db tableName constraintName
         = Done (Reference.TableName reference)
         ∧ readReferenceConstraints db tableName constraintName
           = Done (Reference.ColumnMapping reference))
        constraintNames new.
Proof.
  induction constraintNames as [|constraintName rest IH]; intros acc references; simpl.
  - intros [= <-]. exists []. split; [by rewrite app_nil_r | constructor].
  - intros (columnMap & Hmap & H)%bind_Done.
    apply bind_Done in H as (referencedTable & Htable & Hrest).
    destruct (IH _ _ Hrest) as (new & -> & Hall).
    exists (Reference.mk referencedTable columnMap :: new). split.
    + by rewrite <- app_assoc.
    + by constructor.
Qed.

(** X5: The [References] of an assembled table are one per foreign-key
    constraint name that the catalog listed, in the order of the list; the
    reference of a constraint bears the table that [readReferencedTable]
    returns for it and the mapping that [readReferenceConstraints]
    returns. *)
Theorem assembleTable_references σ db i tableName T constraintNames :
  assembleTable σ db i tableName = Done T →
  readReferenceConstraintNames db tableName = Done constraintNames →
  Forall2 (λ constraintName reference,
       readReferencedTable db tableName constraintName
       = Done (Reference.TableName reference)
       ∧ readReferenceConstraints db tableName constraintName
         = Done (Reference.ColumnMapping reference))
    constraintNames (Table.References T).
Proof.
  intros (?&?&?&?& names &?&?&?&?&?& Hn & Hloop &?)%assembleTable_Done Hnames.
  rewrite Hnames in Hn. injection Hn as <-.
  by destruct (referencesLoop_Done _ _ _ _ _ Hloop) as (new & -> & Hall).
Qed.

Lemma assembleTable_references_witness :
  Forall2 (λ constraintName reference,
       readReferencedTable exDB "rhnchannelfamilymembers" constraintName
       = Done (Reference.TableName reference)
       ∧ readReferenceConstraints exDB "rhnchannelfamilymembers" constraintName
         = Done (Reference.ColumnMapping reference))
    ["rhn_cfm_cfid_fk"]
    (Table.References
       (tableOf (assembleTable ascending exDB 4 "rhnchannelfamilymembers"))).
Proof.
  apply (assembleTable_references ascending exDB 4 "rhnchannelfamilymembers").
  - vm_compute. reflexivity.
  - vm_compute. reflexivity.
Defined.

(** ** Invariants of the result of [ReadTables] *)

Lemma firstName_elem (indexNames : list string) :
  (0 < length indexNames)%nat → firstName indexNames ∈ indexNames.
Proof. destruct indexNames; simpl; [lia|]. intros _. apply list_elem_of_here. Qed.

Lemma mainUniqueIndexName_cases ρl ρn indexNames (indexes : gmap string UniqueIndex.t) :
  validRange ρl → validRange ρn →
  mainUniqueIndexName ρl ρn indexNames indexes = ""
  ∨ is_Some (indexes !! mainUniqueIndexName ρl ρn indexNames indexes)
  ∨ mainUniqueIndexName ρl ρn indexNames indexes ∈ indexNames.
Proof.
  intros Hl Hn. unfold mainUniqueIndexName.
  destruct (Nat.eqb_spec (length indexNames) 1) as [E|_].
  { right. right. apply firstName_elem. lia. }
  destruct (Nat.ltb_spec 1 (length indexNames)) as [Hlen|_]; [|by left].
  destruct (findIndex_cases ρl indexes "label" Hl) as [[-> _]|(index & Hi & _)].
  - simpl.
    destruct (findIndex_cases ρn indexes "name" Hn) as [[-> _]|(index & Hi & _)].
    + simpl. right. right. apply firstName_elem. lia.
    + destruct (len _ =? 0)%nat; [|by right; left].
      right. right. apply firstName_elem. lia.
  - destruct (len (findIndex ρl indexes "label") =? 0)%nat; [|by right; left].
    destruct (findIndex_cases ρn indexes "name" Hn) as [[-> _]|(index' & Hi' & _)].
    + simpl. right. right. apply firstName_elem. lia.
    + destruct (len _ =? 0)%nat; [|by right; left].
      right. right. apply firstName_elem. lia.
Qed.

Lemma assembleTable_mainIsIndex σ db i tableName T :
  validSchedule σ →
  assembleTable σ db i tableName = Done T →
  mainIsIndex T.
Proof.
  intros Hσ HT.
  pose proof HT as (?&?&?& indexNames &?&?&?&?& Hn & Hloop &?&?&?)%assembleTable_Done.
  pose proof (assembleTable_main _ _ _ _ _ _ HT Hn) as Hmain.
  assert (Hkey : ∀ name, name ∈ indexNames →
            ∃ index, Table.UniqueIndexes T !! name = Some index
                     ∧ UniqueIndex.Name index = name).
  { intros name Hin.
    destruct (proj1 (indexesLoop_lookup _ _ _ _ Hloop name) Hin) as (columns & _ & Hl).
    by exists (UniqueIndex.mk name columns). }
  assert (Hname : ∀ name index, Table.UniqueIndexes T !! name = Some index →
            UniqueIndex.Name index = name).
  { intros name index Hl.
    destruct (indexesLoop_lookup _ _ _ _ Hloop name) as [Hin Hout].
    destruct (decide (name ∈ indexNames)) as [Hd|Hd].
    - destruct (Hin Hd) as (columns & _ & Hl'). rewrite Hl in Hl'.
      by injection Hl' as ->.
    - by rewrite (Hout Hd), lookup_empty in Hl. }
  unfold mainIsIndex. rewrite Hmain.
  destruct (mainUniqueIndexName_cases (σ i "label") (σ i "name") indexNames
              (Table.UniqueIndexes T) (Hσ _ _) (Hσ _ _)) as [E|[[index Hi]|Hin]].
  - by left.
  - right. exists index. split; [done|]. by apply Hname.
  - right. by apply Hkey.
Qed.

Lemma assembleLoop_Forall σ db (P : Table.t → Prop) tableNames :
  (∀ i tableName T, assembleTable σ db i tableName = Done T → P T) →
  ∀ i acc result,
    Forall P acc →
    assembleLoop σ db i tableNames acc = Done result →
    Forall P result.
Proof.
  intros HP. induction tableNames as [|tableName rest IH];
    intros i acc result Hacc; simpl.
  - by intros [= <-].
  - intros (T & HT & Hrest)%bind_Done. eapply IH; [|exact Hrest].
    apply Forall_app. split; [done|]. constructor; [|constructor]. by eapply HP.
Qed.

Lemma corrected_mainIsIndex result (T : Table.t) :
  mainIsIndex T → mainIsIndex (corrected result T).
Proof.
  unfold corrected. destruct (revoked result T); [|done].
  intros _. by left.
Qed.

(** X6: In every table that [ReadTables] returns, whatever the order of
    [range] over the maps, [MainUniqueIndexName] is the empty string or the
    key of an entry of [UniqueIndexes], and that entry bears it as its
    [Name]. *)
Theorem ReadTables_main_is_index σ db result :
  validSchedule σ →
  ReadTables σ db = Done result →
  Forall mainIsIndex result.
Proof.
  intros Hσ. unfold ReadTables, readTablesOf.
  intros (assembled & Hloop & [= <-])%bind_Done.
  rewrite correctionPass_spec, Forall_fmap.
  eapply Forall_impl.
  - eapply (assembleLoop_Forall σ db mainIsIndex); [|constructor|exact Hloop].
    intros i tableName T. by apply assembleTable_mainIsIndex.
  - intros T. apply corrected_mainIsIndex.
Qed.

(** X7: Every run of [ReadTables] that returns yields exactly the thirteen
    target tables of [readTableNames], each once and in that order. *)
Theorem ReadTables_names σ db result :
  ReadTables σ db = Done result →
  Table.Name <$> result = readTableNames db
  ∧ NoDup (Table.Name <$> result)
  ∧ length result = 13%nat.
Proof.
  intros Hr. apply readTablesOf_names in Hr.
  split; [done|]. split.
  - rewrite Hr. unfold readTableNames. apply (bool_decide_unpack _). by vm_compute.
  - rewrite <- (length_fmap Table.Name), Hr. reflexivity.
Qed.

Lemma ReadTables_main_is_index_witness :
  Forall mainIsIndex (resultOf (ReadTables descending exDB)).
Proof.
  apply (ReadTables_main_is_index descending exDB).
  - apply descending_valid.
  - vm_compute. reflexivity.
Defined.

Lemma ReadTables_names_witness :
  Table.Name <$> resultOf (ReadTables ascending exDB) = readTableNames exDB
  ∧ NoDup (Table.Name <$> resultOf (ReadTables ascending exDB))
  ∧ length (resultOf (ReadTables ascending exDB)) = 13%nat.
Proof.
  apply (ReadTables_names ascending exDB).
  vm_compute. reflexivity.
Defined.

(** ** When the run returns *)

Lemma queryStrings_scans {A} (q : queryResult A) :
  scans q → ∃ l, queryStrings q = Done l.
Proof.
  intros (rows & -> & Hnot). simpl.
  destruct (scanLoop (fetched rows) []) as [|l] eqn:E; [|by exists l].
  by apply scanLoop_Fatal in E.
Qed.

Lemma scanMapLoop_scans (rows : list (scanned (string * string))) :
  ScanError ∉ rows → ∀ acc, ∃ m, scanMapLoop rows acc = Done m.
Proof.
  induction rows as [|[[column foreign]|] rest IH]; intros Hnot acc; simpl.
  - by exists acc.
  - apply IH. intros ?. apply Hnot. by apply list_elem_of_further.
  - exfalso. apply Hnot, list_elem_of_here.
Qed.

Section returns.
Variables (σ : schedule) (db : DB).
Hypothesis Hdb : noCheckedError db.

Lemma indexesLoop_returns (indexNames : list string) :
  ∀ acc, ∃ indexes, indexesLoop db indexNames acc = Done indexes.
Proof.
  destruct Hdb as (_ & _ & _ & Hcols & _).
  induction indexNames as [|indexName rest IH]; intros acc; simpl.
  - by exists acc.
  - unfold readIndexColumns.
    destruct (queryStrings_scans _ (Hcols indexName)) as (columns & ->). simpl.
    apply IH.
Qed.

Lemma referencesLoop_returns tableName (constraintNames : list string) :
  ∀ acc, ∃ references,
    referencesLoop db tableName constraintNames acc = Done references.
Proof.
  destruct Hdb as (_ & _ & _ & _ & _ & Href & Hmap & _).
  induction constraintNames as [|constraintName rest IH]; intros acc; simpl.
  - by exists acc.
  - unfold readReferenceConstraints, readReferencedTable.
    destruct (Hmap tableName constraintName) as (rows & -> & Hnot).
    destruct (scanMapLoop_scans _ Hnot ∅) as (columnMap & ->). simpl.
    specialize (Href constraintName).
    destruct (referencedTableQuery db constraintName) as [|rows']; [done|]. simpl.
    apply IH.
Qed.

Lemma assembleTable_returns i tableName :
  ∃ T, assembleTable σ db i tableName = Done T.
Proof.
  pose proof Hdb as (Hc & Hpk & Hidx & _ & Hcn & _ & _ & Hseq).
  unfold assembleTable, readColumnNames, readPKColumnNames, readPKSequence,
    readUniqueIndexNames, readReferenceConstraintNames.
  destruct (queryStrings_scans _ (Hc tableName)) as (columns & ->). simpl.
  destruct (queryStrings_scans _ (Hpk tableName)) as (pkColumns & ->). simpl.
  specialize (Hseq tableName).
  destruct (pkSequenceQuery db tableName) as [|rows]; [done|]. simpl.
  destruct (queryStrings_scans _ (Hidx tableName)) as (indexNames & ->). simpl.
  destruct (indexesLoop_returns indexNames ∅) as (indexes & ->). simpl.
  destruct (queryStrings_scans _ (Hcn tableName)) as (constraintNames & ->). simpl.
  destruct (referencesLoop_returns tableName constraintNames []) as (refs & ->).
  simpl. eauto.
Qed.

Lemma assembleLoop_returns (tableNames : list string) :
  ∀ i acc, ∃ result, assembleLoop σ db i tableNames acc = Done result.
Proof.
  induction tableNames as [|tableName rest IH]; intros i acc; simpl.
  - by exists acc.
  - destruct (assembleTable_returns i tableName) as (T & ->). simpl. apply IH.
Qed.
End returns.

(** X8: [ReadTables] returns whenever no statement meets an error that a
    reader looks at, that is, whenever [db.Query] succeeds in every statement
    and [rows.Scan] succeeds on every fetched row of the six looping
    readers; broken cursors and failing scans in [readReferencedTable] and
    [readPKSequence] do not stop it. *)
Theorem ReadTables_returns σ db :
  noCheckedError db → ∃ result, ReadTables σ db = Done result.
Proof.
  intros Hdb. unfold ReadTables, readTablesOf.
  destruct (assembleLoop_returns σ db Hdb (readTableNames db) 0 [])
    as (assembled & ->).
  simpl. eauto.
Qed.

Lemma answerOf_scans {A} (answers : list (string * list A)) (arg : string) :
  scans (answerOf answers arg).
Proof.
  unfold answerOf, answered. eexists. split; [reflexivity|]. simpl.
  intros (x & Hx & _)%list_elem_of_fmap. discriminate Hx.
Qed.

Lemma ReadTables_returns_witness : ∃ result, ReadTables ascending exBrokenDB = Done result.
Proof.
  apply (ReadTables_returns ascending exBrokenDB).
  repeat split; try (intros; apply answerOf_scans).
  - intros constraintName. simpl.
    destruct (String.eqb constraintName "rhn_cfm_cfid_fk"); discriminate.
  - intros tableName. discriminate.
Defined.

(** ** What the order of [range] can change *)

Section anyOrders.
Variables (σ1 σ2 : schedule) (db : DB).

Lemma assembleTable_sameExceptMain i tableName :
  agree sameExceptMain (assembleTable σ1 db i tableName)
                       (assembleTable σ2 db i tableName).
Proof.
  unfold assembleTable.
  destruct (readColumnNames db tableName) as [|columns]; [done|].
  destruct (readPKColumnNames db tableName) as [|pkColumns]; [done|].
  destruct (readPKSequence db tableName) as [|pkSequence]; [done|].
  destruct (readUniqueIndexNames db tableName) as [|indexNames]; [done|].
  simpl. destruct (indexesLoop db indexNames ∅) as [|indexes]; [done|].
  destruct (readReferenceConstraintNames db tableName) as [|constraintNames]; [done|].
  simpl. destruct (referencesLoop db tableName constraintNames []) as [|references];
    [done|].
  simpl. by repeat split.
Qed.

Lemma assembleLoop_sameExceptMain tableNames : ∀ i acc1 acc2,
  Forall2 sameExceptMain acc1 acc2 →
  agree (Forall2 sameExceptMain) (assembleLoop σ1 db i tableNames acc1)
                                 (assembleLoop σ2 db i tableNames acc2).
Proof.
  induction tableNames as [|tableName rest IH]; intros i acc1 acc2 Hacc; simpl.
  - done.
  - pose proof (assembleTable_sameExceptMain i tableName) as Ht.
    destruct (assembleTable σ1 db i tableName) as [|T1],
             (assembleTable σ2 db i tableName) as [|T2]; try done.
    simpl. apply IH. apply Forall2_app; [done|]. by constructor.
Qed.
End anyOrders.

Lemma corrected_sameExceptMain result (T : Table.t) :
  sameExceptMain T (corrected result T).
Proof.
  destruct (corrected_sameButMain result T) as (?&?&?&?&?&?&_).
  by repeat split.
Qed.

Lemma sameExceptMain_trans (a b c : Table.t) :
  sameExceptMain a b → sameExceptMain b c → sameExceptMain a c.
Proof.
  unfold sameExceptMain. intros (?&?&?&?&?&?) (?&?&?&?&?&?).
  repeat split; congruence.
Qed.

Lemma sameExceptMain_sym (a b : Table.t) :
  sameExceptMain a b → sameExceptMain b a.
Proof. unfold sameExceptMain. intros (?&?&?&?&?&?). by repeat split. Qed.

(** X9: The order in which [range] yields the entries of the maps decides
    nothing but [MainUniqueIndexName]: two runs of [ReadTables] on the same
    answers of the catalog, under any two orders, both end in [log.Fatal] or
    both return, and then table by table with the same [Name], [Columns],
    [PKColumns], [PKSequence], [UniqueIndexes] and [References]. *)
Theorem ReadTables_order_changes_main_only (σ1 σ2 : schedule) (db : DB) :
  agree (Forall2 sameExceptMain) (ReadTables σ1 db) (ReadTables σ2 db).
Proof.
  unfold ReadTables, readTablesOf.
  assert (Hloop := assembleLoop_sameExceptMain σ1 σ2 db (readTableNames db) 0 [] []).
  specialize (Hloop ltac:(constructor)).
  destruct (assembleLoop σ1 db 0 (readTableNames db) []) as [|r1],
           (assembleLoop σ2 db 0 (readTableNames db) []) as [|r2]; try done.
  simpl in *. rewrite !correctionPass_spec.
  apply Forall2_fmap. eapply Forall2_impl; [exact Hloop|].
  intros T1 T2 H12. simpl.
  apply (sameExceptMain_trans _ T1); [apply sameExceptMain_sym, corrected_sameExceptMain|].
  apply (sameExceptMain_trans _ T2); [done | apply corrected_sameExceptMain].
Qed.

(** ** The correction pass and the set of tables *)

Lemma sequenced_Permutation (result result' : list Table.t) tableName :
  result ≡ₚ result' → sequenced result tableName = sequenced result' tableName.
Proof.
  intros Hp. apply eq_true_iff_eq. rewrite !sequenced_true.
  by setoid_rewrite Hp.
Qed.

Lemma revoked_sequenced (result result' : list Table.t) (T : Table.t) :
  (∀ tableName, sequenced result tableName = sequenced result' tableName) →
  revoked result T = revoked result' T.
Proof.
  intros E. unfold revoked. f_equal.
  apply existsb_pointwise. intros column.
  apply existsb_pointwise. intros reference. by rewrite E.
Qed.

(** X10: The pass does not depend on the order of the tables: on a
    permutation of the assembled set it returns the corresponding
    permutation of its result, that is, a table is rewritten to the same
    table at whatever positions it stands in the two orders. *)
Theorem correctionPass_Permutation (result result' : list Table.t) :
  result ≡ₚ result' →
  correctionPass result ≡ₚ correctionPass result'
  ∧ ∀ i j T, result !! i = Some T → result' !! j = Some T →
      ∃ T', correctionPass result !! i = Some T'
            ∧ correctionPass result' !! j = Some T'.
Proof.
  intros Hp.
  assert (Hc : ∀ T, corrected result T = corrected result' T).
  { intros T. unfold corrected.
    rewrite (revoked_sequenced result result'); [done|].
    intros tableName. by apply sequenced_Permutation. }
  split.
  - rewrite !correctionPass_spec.
    rewrite (list_fmap_ext (corrected result) (corrected result') result).
    + by rewrite Hp.
    + intros _ T _. apply Hc.
  - intros i j T Hi Hj. exists (corrected result T).
    rewrite !correctionPass_lookup, Hi, Hj. simpl. by rewrite Hc.
Qed.

Lemma correctionPass_Permutation_witness :
  ∃ T', correctionPass [exChannelFamily; exMembers] !! 1%nat = Some T'
        ∧ correctionPass [exMembers; exChannelFamily] !! 0%nat = Some T'.
Proof.
  refine (proj2 (correctionPass_Permutation [exChannelFamily; exMembers]
                   [exMembers; exChannelFamily] _) 1%nat 0%nat exMembers _ _).
  - apply perm_swap.
  - reflexivity.
  - reflexivity.
Defined.

(** X11: A revocation stays when tables are added to the set: a table whose
    [MainUniqueIndexName] is empty after the pass on [result] has it empty
    after the pass on [result] followed by further tables. *)
Theorem correctionPass_more_tables (result more : list Table.t) (i : nat) :
  Table.MainUniqueIndexName <$> correctionPass result !! i = Some "" →
  Table.MainUniqueIndexName <$> correctionPass (result ++ more) !! i = Some "".
Proof.
  rewrite !correctionPass_lookup.
  destruct (result !! i) as [T|] eqn:Hi; [|done].
  rewrite (lookup_app_l_Some _ _ _ _ Hi). simpl.
  unfold corrected. intros H.
  destruct (revoked result T) eqn:E.
  - assert (revoked (result ++ more) T = true) as ->; [|done].
    apply revoked_true in E as (Hm & index & column & reference & rt & ? & ? & ?
                                & ? & Hrt & ? & ?).
    apply revoked_true. split; [done|].
    exists index, column, reference, rt. repeat split; try done.
    apply elem_of_app. by left.
  - injection H as H. destruct (revoked (result ++ more) T); [done|].
    by rewrite H.
Qed.

Lemma correctionPass_more_tables_witness :
  Table.MainUniqueIndexName <$> correctionPass (exFamilySet ++ exChannelSet) !! 1%nat
  = Some "".
Proof.
  apply (correctionPass_more_tables exFamilySet exChannelSet 1).
  vm_compute. reflexivity.
Defined.

(** ** [findIndex] *)

(** X12: [findIndex], whatever the order of [range]: a non-empty result is the
    key of an index that has the column; and when no index is named by the
    empty string, the result is empty exactly when no index has the
    column. *)
Theorem findIndex_result (ρ : mapRange) (indexes : gmap string UniqueIndex.t)
    (columnName : string) :
  validRange ρ →
  (findIndex ρ indexes columnName ≠ "" →
   ∃ index, indexes !! findIndex ρ indexes columnName = Some index
            ∧ columnName ∈ UniqueIndex.Columns index)
  ∧ (indexes !! "" = None →
     (findIndex ρ indexes columnName = ""
      ↔ ∀ name index, indexes !! name = Some index →
                      columnName ∉ UniqueIndex.Columns index)).
Proof.
  intros Hρ.
  destruct (findIndex_cases ρ indexes columnName Hρ)
    as [[E Hnone]|(index & Hl & Hc)].
  - split; [done|]. intros _. by split.
  - split; [intros _; by exists index|].
    intros Hnamed. split.
    + intros E. rewrite E in Hl. congruence.
    + intros Hnone. by destruct (Hnone _ _ Hl).
Qed.

Lemma findIndex_result_witness :
  (findIndex map_to_list exIndexes "name" ≠ "" →
   ∃ index, exIndexes !! findIndex map_to_list exIndexes "name" = Some index
            ∧ "name" ∈ UniqueIndex.Columns index)
  ∧ (exIndexes !! "" = None →
     (findIndex map_to_list exIndexes "name" = ""
      ↔ ∀ name index, exIndexes !! name = Some index →
                      "name" ∉ UniqueIndex.Columns index)).
Proof.
  apply (findIndex_result map_to_list exIndexes "name").
  intros m. reflexivity.
Defined.

(** X13: When exactly one index has the column, [findIndex] returns its name
    under every order of [range]. *)
Theorem findIndex_single (ρ : mapRange) (indexes : gmap string UniqueIndex.t)
    (columnName name : string) (index : UniqueIndex.t) :
  validRange ρ →
  indexes !! name = Some index →
  columnName ∈ UniqueIndex.Columns index →
  (∀ name' index', indexes !! name' = Some index' →
     columnName ∈ UniqueIndex.Columns index' → name' = name) →
  findIndex ρ indexes columnName = name.
Proof.
  intros Hρ Hl Hc Huniq.
  destruct (findIndex_cases ρ indexes columnName Hρ)
    as [[E Hnone]|(index' & Hl' & Hc')].
  - by destruct (Hnone _ _ Hl).
  - by apply (Huniq _ index').
Qed.

Lemma findIndex_single_witness :
  findIndex (λ m, reverse (map_to_list m)) exIndexes "label" = "rhn_channel_label_uq".
Proof.
  apply (findIndex_single (λ m, reverse (map_to_list m)) exIndexes "label"
           "rhn_channel_label_uq" (UniqueIndex.mk "rhn_channel_label_uq" ["label"])).
  - intros m. apply reverse_Permutation.
  - vm_compute. reflexivity.
  - apply list_elem_of_here.
  - intros name' index' Hl Hc.
    apply elem_of_map_to_list in Hl.
    set (entries := map_to_list _) in Hl. vm_compute in entries. subst entries.
    split_elem_of Hl; simpl in Hc; split_elem_of Hc. reflexivity.
Defined.

(** ** The statement of [readPKSequence]: what it finds *)

(** X15: When the catalog has a [PRIMARY KEY] constraint of the table with [id]
    at position 1, and a sequence, both in schema [public], whose normal
    names agree, then [readPKSequence] returns the name of such a sequence,
    whatever the order in which the rows arrive. *)
Theorem readPKSequence_finds (cat : Catalog.t) (db : DB) (tableName : string)
    (rows : list string) tc kcu s :
  matchingKey cat tableName tc kcu s →
  rows ≡ₚ pkSequenceRows cat tableName →
  pkSequenceQuery db tableName = answered rows →
  ∃ name tc' kcu' s',
    readPKSequence db tableName = Done name
    ∧ matchingKey cat tableName tc' kcu' s'
    ∧ name = Catalog.sequence_name s'.
Proof.
  intros Hm Hperm Hq. unfold readPKSequence. rewrite Hq. simpl.
  assert (Catalog.sequence_name s ∈ rows) as Hin.
  { rewrite Hperm. apply elem_of_pkSequenceRows. by exists tc, kcu, s. }
  destruct rows as [|row rest]; [by apply elem_of_nil in Hin|]. simpl.
  assert (row ∈ pkSequenceRows cat tableName) as Hrow.
  { rewrite <- Hperm. apply list_elem_of_here. }
  apply elem_of_pkSequenceRows in Hrow as (tc' & kcu' & s' & Hm' & ->).
  by exists (Catalog.sequence_name s'), tc', kcu', s'.
Qed.

Lemma readPKSequence_finds_witness :
  ∃ name tc' kcu' s',
    readPKSequence (withCatalog exChannelCatalog exDB) "rhnchannel" = Done name
    ∧ matchingKey exChannelCatalog "rhnchannel" tc' kcu' s'
    ∧ name = Catalog.sequence_name s'.
Proof.
  apply (readPKSequence_finds exChannelCatalog (withCatalog exChannelCatalog exDB)
           "rhnchannel" ["rhn_channel_id_seq"]
           (Catalog.mkConstraint "public" "rhn_channel_id_pk" "rhnchannel" "PRIMARY KEY")
           (Catalog.mkKeyColumn "rhn_channel_id_pk" "rhnchannel" "id" 1)
           (Catalog.mkSequence "public" "rhn_channel_id_seq")).
  - unfold matchingKey. simpl.
    repeat split; try reflexivity.
    + apply list_elem_of_here.
    + apply list_elem_of_here.
    + apply list_elem_of_further, list_elem_of_here.
  - vm_compute. reflexivity.
  - vm_compute. reflexivity.
Defined.

(** ** The normal names *)

Lemma occurs_false pattern c rest :
  occurs pattern (String c rest) = false →
  String.prefix pattern (String c rest) = false ∧ occurs pattern rest = false.
Proof. simpl. by intros [? ?]%orb_false_iff. Qed.

Lemma cutFirstMatch_none matchAt c rest :
  matchAt (String c rest) = None →
  cutFirstMatch matchAt (String c rest) = String c (cutFirstMatch matchAt rest).
Proof. intros H. simpl. by rewrite H. Qed.

Lemma matchOptId_None word t :
  String.prefix ("_id" +:+ word) t = false →
  String.prefix word t = false →
  matchOptId word t = None.
Proof. intros H1 H2. unfold matchOptId. by rewrite H1, H2. Qed.

Lemma prefix_cons a s1 b s2 :
  String.prefix (String a s1) (String b s2)
  = if ascii_dec a b then String.prefix s1 s2 else false.
Proof. reflexivity. Qed.

Lemma prefix_nil s : String.prefix "" s = true.
Proof. by destruct s. Qed.

Lemma append_cons c r s : String c r +:+ s = String c (r +:+ s).
Proof. reflexivity. Qed.

(** No match of [(_id)?_pk(ey)?] starts inside a name that has no [_pk] and
    no [_id] at that place, whichever conventional suffix follows. *)
Lemma matchPk_inside c r suffix :
  String.prefix "_pk" (String c r) = false →
  String.prefix "_id" (String c r) = false →
  suffix ∈ ["_pk"; "_pkey"; "_id_pk"; "_id_pkey"] →
  matchPk (String c r +:+ suffix) = None.
Proof.
  intros Hpk Hid Hs. unfold matchPk. rewrite matchOptId_None; [done| |].
  - change (String.prefix "_id_pk" (String c r +:+ suffix) = false).
    split_elem_of Hs;
      rewrite ?append_cons, ?prefix_cons in *;
      (destruct (ascii_dec "_" c) as [<-|]; [|done]);
      (destruct r as [|c2 r]; [by vm_compute|]);
      rewrite ?append_cons, ?prefix_cons in *;
      (destruct (ascii_dec "i" c2) as [<-|]; [|done]);
      (destruct r as [|c3 r]; [by vm_compute|]);
      rewrite ?append_cons, ?prefix_cons in *;
      (destruct (ascii_dec "d" c3) as [<-|]; [|done]);
      by rewrite prefix_nil in *.
  - change (String.prefix "_pk" (String c r +:+ suffix) = false).
    split_elem_of Hs;
      rewrite ?append_cons, ?prefix_cons in *;
      (destruct (ascii_dec "_" c) as [<-|]; [|done]);
      (destruct r as [|c2 r]; [by vm_compute|]);
      rewrite ?append_cons, ?prefix_cons in *;
      (destruct (ascii_dec "p" c2) as [<-|]; [|done]);
      (destruct r as [|c3 r]; [by vm_compute|]);
      rewrite ?append_cons, ?prefix_cons in *;
      (destruct (ascii_dec "k" c3) as [<-|]; [|done]);
      by rewrite prefix_nil in *.
Qed.

Lemma matchSeq_inside c r suffix :
  String.prefix "_seq" (String c r) = false →
  String.prefix "_id" (String c r) = false →
  suffix ∈ ["_seq"; "_id_seq"] →
  matchSeq (String c r +:+ suffix) = None.
Proof.
  intros Hseq Hid Hs. unfold matchSeq. apply matchOptId_None.
  - change (String.prefix "_id_seq" (String c r +:+ suffix) = false).
    split_elem_of Hs;
      rewrite ?append_cons, ?prefix_cons in *;
      (destruct (ascii_dec "_" c) as [<-|]; [|done]);
      (destruct r as [|c2 r]; [by vm_compute|]);
      rewrite ?append_cons, ?prefix_cons in *;
      (destruct (ascii_dec "i" c2) as [<-|]; [|done]);
      (destruct r as [|c3 r]; [by vm_compute|]);
      rewrite ?append_cons, ?prefix_cons in *;
      (destruct (ascii_dec "d" c3) as [<-|]; [|done]);
      by rewrite prefix_nil in *.
  - change (String.prefix "_seq" (String c r +:+ suffix) = false).
    split_elem_of Hs;
      rewrite ?append_cons, ?prefix_cons in *;
      (destruct (ascii_dec "_" c) as [<-|]; [|done]);
      (destruct r as [|c2 r]; [by vm_compute|]);
      rewrite ?append_cons, ?prefix_cons in *;
      (destruct (ascii_dec "s" c2) as [<-|]; [|done]);
      (destruct r as [|c3 r]; [by vm_compute|]);
      rewrite ?append_cons, ?prefix_cons in *;
      (destruct (ascii_dec "e" c3) as [<-|]; [|done]);
      (destruct r as [|c4 r]; [by vm_compute|]);
      rewrite ?append_cons, ?prefix_cons in *;
      (destruct (ascii_dec "q" c4) as [<-|]; [|done]);
      by rewrite prefix_nil in *.
Qed.

Lemma cutFirstMatch_pk base suffix :
  occurs "_pk" base = false →
  occurs "_id" base = false →
  suffix ∈ ["_pk"; "_pkey"; "_id_pk"; "_id_pkey"] →
  cutFirstMatch matchPk (base +:+ suffix) = base.
Proof.
  intros Hpk Hid Hs. induction base as [|c base IH].
  - simpl. split_elem_of Hs; reflexivity.
  - apply occurs_false in Hpk as [Hpk Hpk'], Hid as [Hid Hid'].
    change (String c base +:+ suffix) with (String c (base +:+ suffix)).
    rewrite cutFirstMatch_none.
    + f_equal. by apply IH.
    + by apply (matchPk_inside c base suffix).
Qed.

Lemma cutFirstMatch_seq base suffix :
  occurs "_seq" base = false →
  occurs "_id" base = false →
  suffix ∈ ["_seq"; "_id_seq"] →
  cutFirstMatch matchSeq (base +:+ suffix) = base.
Proof.
  intros Hseq Hid Hs. induction base as [|c base IH].
  - simpl. split_elem_of Hs; reflexivity.
  - apply occurs_false in Hseq as [Hseq Hseq'], Hid as [Hid Hid'].
    change (String c base +:+ suffix) with (String c (base +:+ suffix)).
    rewrite cutFirstMatch_none.
    + f_equal. by apply IH.
    + by apply (matchSeq_inside c base suffix).
Qed.

(** X16: The naming conventions are recognised: for a base name in which
    [_pk], [_seq] and [_id] do not occur, a constraint named by the base
    followed by [_pk], [_pkey], [_id_pk] or [_id_pkey] and a sequence named
    by the base followed by [_seq] or [_id_seq] have the same normal name,
    the base without its underscores. *)
Theorem conventional_names_agree (base pkSuffix seqSuffix : string) :
  occurs "_pk" base = false →
  occurs "_seq" base = false →
  occurs "_id" base = false →
  pkSuffix ∈ ["_pk"; "_pkey"; "_id_pk"; "_id_pkey"] →
  seqSuffix ∈ ["_seq"; "_id_seq"] →
  normalConstraintName (base +:+ pkSuffix) = dropUnderscores base
  ∧ normalSequenceName (base +:+ seqSuffix) = dropUnderscores base.
Proof.
  intros Hpk Hseq Hid Hp Hs. unfold normalConstraintName, normalSequenceName.
  by rewrite cutFirstMatch_pk, cutFirstMatch_seq.
Qed.

Lemma conventional_names_agree_witness :
  normalConstraintName ("rhn_channel_family" +:+ "_id_pk")
  = dropUnderscores "rhn_channel_family"
  ∧ normalSequenceName ("rhn_channel_family" +:+ "_id_seq")
    = dropUnderscores "rhn_channel_family".
Proof.
  apply (conventional_names_agree "rhn_channel_family" "_id_pk" "_id_seq").
  - reflexivity.
  - reflexivity.
  - reflexivity.
  - apply list_elem_of_further, list_elem_of_further, list_elem_of_here.
  - apply list_elem_of_further, list_elem_of_here.
Defined.

(** ** The order of [range] in [findIndex] *)

(** X14: [findIndex] returns the name of the first entry, in the order in which
    [range] yields them, whose index has the column. *)
Theorem findIndex_first_in_order (ρ : mapRange) (indexes : gmap string UniqueIndex.t)
    (columnName name : string) (index : UniqueIndex.t)
    (before after : list (string * UniqueIndex.t)) :
  ρ indexes = (before ++ (name, index) :: after)%list →
  columnName ∈ UniqueIndex.Columns index →
  (∀ name' index', (name', index') ∈ before →
     columnName ∉ UniqueIndex.Columns index') →
  findIndex ρ indexes columnName = name.
Proof.
  intros Hρ Hc Hbefore. unfold findIndex. rewrite Hρ. clear Hρ.
  induction before as [|[name' index'] before IH]; simpl.
  - by rewrite (proj2 (columnLoop_true _ _) Hc).
  - destruct (columnLoop (UniqueIndex.Columns index') columnName) eqn:E.
    + apply columnLoop_true in E.
      destruct (Hbefore name' index'); [apply list_elem_of_here | done].
    + apply IH. intros n i Hin. apply (Hbefore n i). by apply list_elem_of_further.
Qed.

Lemma findIndex_first_in_order_witness :
  findIndex (λ m, reverse (map_to_list m))
    (Table.UniqueIndexes (tableOf (assembleTable descending exTwoLabelsDB 0 "rhnchannel")))
    "label"
  = "rhn_channel_label_uq".
Proof.
  apply (findIndex_first_in_order (λ m, reverse (map_to_list m)) _ "label"
           "rhn_channel_label_uq" (UniqueIndex.mk "rhn_channel_label_uq" ["label"])
           []
           [("rhn_channel_org_label_uq",
             UniqueIndex.mk "rhn_channel_org_label_uq" ["label"; "org_id"])]).
  - vm_compute. reflexivity.
  - apply list_elem_of_here.
  - intros name' index' Hin. by apply elem_of_nil in Hin.
Defined.

(** ** [ReadTables] as the composition of the two loops *)

Lemma assembleLoop_lookup σ db tableNames : ∀ i acc result,
  assembleLoop σ db i tableNames acc = Done result →
  length result = (length acc + length tableNames)%nat
  ∧ (∀ k, (k < length acc)%nat → result !! k = acc !! k)
  ∧ (∀ k tableName, tableNames !! k = Some tableName →
       ∃ T, result !! (length acc + k)%nat = Some T
            ∧ assembleTable σ db (i + k) tableName = Done T).
Proof.
  induction tableNames as [|name rest IH]; intros i acc result; simpl.
  - intros [= <-]. split; [lia|]. split; [done|]. intros k tableName Hk. done.
  - intros (T & HT & Hrest)%bind_Done.
    destruct (IH _ _ _ Hrest) as (Hlen & Hold & Hnew).
    rewrite length_app in Hlen, Hold, Hnew. simpl in *.
    split; [lia|]. split.
    + intros k Hk. rewrite Hold by lia. by apply lookup_app_l.
    + intros [|k] tableName Hk; simpl in Hk.
      * injection Hk as <-. exists T. rewrite !Nat.add_0_r.
        rewrite Hold by lia. split; [|done].
        rewrite lookup_app_r by lia. by rewrite Nat.sub_diag.
      * destruct (Hnew k tableName Hk) as (T' & Hl & HT').
        exists T'. split.
        -- rewrite <- Hl. f_equal. lia.
        -- rewrite <- HT'. f_equal. lia.
Qed.

(** X17: The table that [ReadTables] returns at a position is the table
    assembled for the target table at that position, under the orders of
    [range] of that position, with [MainUniqueIndexName] kept or cleared and
    nothing else changed. *)
Theorem ReadTables_tables σ db result k tableName T :
  ReadTables σ db = Done result →
  readTableNames db !! k = Some tableName →
  result !! k = Some T →
  ∃ T0, assembleTable σ db k tableName = Done T0 ∧ sameButMain T0 T.
Proof.
  unfold ReadTables, readTablesOf.
  intros (assembled & Hloop & [= <-])%bind_Done Hk HT.
  destruct (assembleLoop_lookup _ _ _ _ _ _ Hloop) as (_ & _ & Hnew).
  destruct (Hnew k tableName Hk) as (T0 & Hl & HT0). simpl in Hl, HT0.
  exists T0. split; [done|].
  rewrite correctionPass_lookup, Hl in HT. injection HT as <-.
  apply corrected_sameButMain.
Qed.

Lemma ReadTables_tables_witness :
  ∃ T0, assembleTable ascending exDB 4 "rhnchannelfamilymembers" = Done T0
        ∧ sameButMain T0
            (Table.setMainUniqueIndexName ""
               (tableOf (assembleTable ascending exDB 4 "rhnchannelfamilymembers"))).
Proof.
  apply (ReadTables_tables ascending exDB (resultOf (ReadTables ascending exDB)) 4).
  - vm_compute. reflexivity.
  - reflexivity.
  - vm_compute. reflexivity.
Defined.

Lemma assembleLoop_Fatal σ db tableNames : ∀ i acc,
  assembleLoop σ db i tableNames acc = Fatal
  ↔ ∃ k tableName, tableNames !! k = Some tableName
                    ∧ assembleTable σ db (i + k) tableName = Fatal.
Proof.
  induction tableNames as [|name rest IH]; intros i acc; simpl.
  - split; [done|]. by intros (k & tableName & Hk & _).
  - destruct (assembleTable σ db i name) as [|T] eqn:HT; simpl.
    + split; [|done]. intros _. exists 0%nat, name. by rewrite Nat.add_0_r.
    + rewrite IH. split.
      * intros (k & tableName & Hk & Hf). exists (S k), tableName.
        split; [done|]. rewrite <- Hf. f_equal. lia.
      * intros ([|k] & tableName & Hk & Hf); simpl in Hk.
        -- injection Hk as <-. rewrite Nat.add_0_r in Hf. congruence.
        -- exists k, tableName. split; [done|]. rewrite <- Hf. f_equal. lia.
Qed.

(** X18: [ReadTables] ends in [log.Fatal] exactly when the assembly of one of
    the target tables does; the correction pass never does. *)
Theorem ReadTables_fatal_iff σ db :
  ReadTables σ db = Fatal
  ↔ ∃ k tableName, readTableNames db !! k = Some tableName
                    ∧ assembleTable σ db k tableName = Fatal.
Proof.
  unfold ReadTables, readTablesOf.
  rewrite <- (assembleLoop_Fatal σ db (readTableNames db) 0 []).
  by destruct (assembleLoop σ db 0 (readTableNames db) []).
Qed.

(** * Runs under two orders of [range] *)

Lemma elem_of_namesOn columnName (indexes : gmap string UniqueIndex.t) name :
  name ∈ namesOn columnName indexes
  ↔ ∃ index, indexes !! name = Some index
             ∧ columnName ∈ UniqueIndex.Columns index.
Proof.
  unfold namesOn. rewrite list_elem_of_fmap. split.
  - intros ([n index] & -> & Hin). apply list_elem_of_filter in Hin as [Hc Hin].
    apply elem_of_map_to_list in Hin. by exists index.
  - intros (index & Hl & Hc). exists (name, index). split; [done|].
    apply list_elem_of_filter. split; [done|]. by apply elem_of_map_to_list.
Qed.

Lemma findIndex_namesOn ρ (indexes : gmap string UniqueIndex.t) columnName :
  validRange ρ →
  indexes !! "" = None →
  (namesOn columnName indexes = [] ∧ findIndex ρ indexes columnName = "")
  ∨ (findIndex ρ indexes columnName ≠ ""
     ∧ findIndex ρ indexes columnName ∈ namesOn columnName indexes).
Proof.
  intros Hρ Hnamed.
  destruct (findIndex_cases ρ indexes columnName Hρ)
    as [[E Hnone]|(index & Hl & Hc)].
  - left. split; [|done].
    destruct (namesOn columnName indexes) as [|name rest] eqn:En; [done|].
    assert (name ∈ namesOn columnName indexes) as Hin.
    { rewrite En. apply list_elem_of_here. }
    apply elem_of_namesOn in Hin as (index & Hl & Hc). by destruct (Hnone _ _ Hl).
  - right. split; [congruence|]. apply elem_of_namesOn. by exists index.
Qed.

Lemma mainUniqueIndexName_candidates ρl ρn indexNames (T : Table.t) :
  validRange ρl → validRange ρn →
  Table.UniqueIndexes T !! "" = None →
  (1 < length indexNames)%nat →
  (candidates T = []
   ∧ mainUniqueIndexName ρl ρn indexNames (Table.UniqueIndexes T)
     = firstName indexNames)
  ∨ mainUniqueIndexName ρl ρn indexNames (Table.UniqueIndexes T) ∈ candidates T.
Proof.
  intros Hl Hn Hnamed Hlen. unfold mainUniqueIndexName, candidates.
  destruct (Nat.eqb_spec (length indexNames) 1) as [|_]; [lia|].
  destruct (Nat.ltb_spec 1 (length indexNames)) as [_|]; [|lia].
  destruct (findIndex_namesOn ρl _ "label" Hl Hnamed) as [[-> ->]|[Hne Hin]].
  - simpl.
    destruct (findIndex_namesOn ρn _ "name" Hn Hnamed) as [[-> ->]|[Hne Hin]].
    + by left.
    + right. destruct (Nat.eqb_spec (len (findIndex ρn (Table.UniqueIndexes T) "name")) 0)
        as [E|_]; [by apply len_0 in E|done].
  - right. destruct (Nat.eqb_spec (len (findIndex ρl (Table.UniqueIndexes T) "label")) 0)
      as [E|_]; [by apply len_0 in E|].
    destruct (namesOn "label" (Table.UniqueIndexes T)); [by apply elem_of_nil in Hin|done].
Qed.

Lemma mainUniqueIndexName_pair ρl ρn ρl' ρn' indexNames (T : Table.t) :
  validRange ρl → validRange ρn → validRange ρl' → validRange ρn' →
  Table.UniqueIndexes T !! "" = None →
  mainUniqueIndexName ρl' ρn' indexNames (Table.UniqueIndexes T)
  = mainUniqueIndexName ρl ρn indexNames (Table.UniqueIndexes T)
  ∨ (mainUniqueIndexName ρl ρn indexNames (Table.UniqueIndexes T) ∈ candidates T
     ∧ mainUniqueIndexName ρl' ρn' indexNames (Table.UniqueIndexes T) ∈ candidates T).
Proof.
  intros Hl Hn Hl' Hn' Hnamed.
  destruct (decide (1 < length indexNames)%nat) as [Hlen|Hlen].
  - destruct (mainUniqueIndexName_candidates ρl ρn indexNames T Hl Hn Hnamed Hlen)
      as [[E ->]|H1];
    destruct (mainUniqueIndexName_candidates ρl' ρn' indexNames T Hl' Hn' Hnamed Hlen)
      as [[E' ->]|H2].
    + by left.
    + rewrite E in H2. by apply elem_of_nil in H2.
    + rewrite E' in H1. by apply elem_of_nil in H1.
    + by right.
  - left. unfold mainUniqueIndexName.
    destruct (length indexNames =? 1)%nat; [done|].
    destruct (Nat.ltb_spec 1 (length indexNames)); [lia|done].
Qed.

Section electedAlike.
Variables (σ1 σ2 : schedule) (db : DB).
Hypothesis (Hσ1 : validSchedule σ1) (Hσ2 : validSchedule σ2).

Lemma assembleTable_electedAlike i tableName :
  agree electedAlike (assembleTable σ1 db i tableName)
                     (assembleTable σ2 db i tableName).
Proof.
  unfold assembleTable.
  destruct (readColumnNames db tableName) as [|columns]; [done|].
  destruct (readPKColumnNames db tableName) as [|pkColumns]; [done|].
  destruct (readPKSequence db tableName) as [|pkSequence]; [done|].
  destruct (readUniqueIndexNames db tableName) as [|indexNames]; [done|].
  simpl. destruct (indexesLoop db indexNames ∅) as [|indexes]; [done|].
  destruct (readReferenceConstraintNames db tableName) as [|constraintNames]; [done|].
  simpl. destruct (referencesLoop db tableName constraintNames []) as [|references];
    [done|].
  simpl. split; [by repeat split|]. simpl. intros Hnamed.
  set (T := Table.mk tableName columns (pkColumnMapOf pkColumns) pkSequence indexes
              (mainUniqueIndexName (σ1 i "label") (σ1 i "name") indexNames indexes)
              references).
  apply (mainUniqueIndexName_pair (σ1 i "label") (σ1 i "name")
           (σ2 i "label") (σ2 i "name") indexNames T); auto.
Qed.

Lemma assembleLoop_electedAlike tableNames : ∀ i acc1 acc2,
  Forall2 electedAlike acc1 acc2 →
  agree (Forall2 electedAlike) (assembleLoop σ1 db i tableNames acc1)
                               (assembleLoop σ2 db i tableNames acc2).
Proof.
  induction tableNames as [|tableName rest IH]; intros i acc1 acc2 Hacc; simpl.
  - done.
  - pose proof (assembleTable_electedAlike i tableName) as Ht.
    destruct (assembleTable σ1 db i tableName) as [|T1],
             (assembleTable σ2 db i tableName) as [|T2]; try done.
    simpl. apply IH. apply Forall2_app; [done|]. by constructor.
Qed.
End electedAlike.

Lemma electedAlike_keysOf (r1 r2 : list Table.t) :
  Forall2 electedAlike r1 r2 → keysOf r2 = keysOf r1.
Proof.
  unfold keysOf. induction 1 as [|T1 T2 r1 r2 [(Hn&_&_&Hs&_) _] _ IH]; [done|].
  rewrite !fmap_cons. by rewrite Hn, Hs, IH.
Qed.

Lemma sameExceptMain_eq (T1 T2 : Table.t) :
  sameExceptMain T1 T2 →
  Table.MainUniqueIndexName T2 = Table.MainUniqueIndexName T1 →
  T2 = T1.
Proof.
  destruct T1, T2. unfold sameExceptMain. simpl.
  intros (->&->&->&->&->&->) ->. done.
Qed.

Lemma sameExceptMain_cleared (T1 T2 : Table.t) :
  sameExceptMain T1 T2 →
  Table.setMainUniqueIndexName "" T2 = Table.setMainUniqueIndexName "" T1.
Proof.
  destruct T1, T2. unfold sameExceptMain, Table.setMainUniqueIndexName. simpl.
  intros (->&->&->&->&->&->). done.
Qed.

(** [revokedAs] is the condition under which the pass clears the name. *)
Lemma revokedAs_revoked (result R : list Table.t) (T T0 : Table.t) :
  keysOf R = keysOf result →
  Table.UniqueIndexes T0 = Table.UniqueIndexes T →
  Table.References T0 = Table.References T →
  Table.MainUniqueIndexName T0 ≠ "" →
  revokedAs R T (Table.MainUniqueIndexName T0) →
  revoked result T0 = true.
Proof.
  intros Hk Hidx Href Hne (index & column & reference & rt & ? & ? & ? & ? & ? & ? & ?).
  rewrite <- (revoked_keys R result T0 Hk). apply revoked_true. split; [done|].
  exists index, column, reference, rt. rewrite Hidx, Href. by repeat split.
Qed.

Lemma revokedAs_bool (result : list Table.t) (T : Table.t) (name : string) :
  name ≠ "" →
  revoked result (Table.setMainUniqueIndexName name T) = true →
  revokedAs result T name.
Proof.
  intros Hne (_ & index & column & reference & rt & H)%revoked_true.
  by exists index, column, reference, rt.
Qed.

Lemma candidates_key (T : Table.t) name :
  name ∈ candidates T → is_Some (Table.UniqueIndexes T !! name).
Proof.
  unfold candidates.
  destruct (namesOn "label" (Table.UniqueIndexes T)) as [|n rest] eqn:E.
  - intros (index & Hl & _)%elem_of_namesOn. by exists index.
  - rewrite <- E. intros (index & Hl & _)%elem_of_namesOn. by exists index.
Qed.

Lemma corrected_alike (r1 r2 : list Table.t) (T1 T2 : Table.t) :
  keysOf r2 = keysOf r1 →
  electedAlike T1 T2 →
  settled (corrected r1 <$> r1) (corrected r1 T1) →
  corrected r2 T2 = corrected r1 T1.
Proof.
  intros Hk [Hsame Hel] [Hnamed Hset].
  destruct (corrected_sameButMain r1 T1) as (_&_&_&_& Hidx & Href &_).
  assert (candidates (corrected r1 T1) = candidates T1) as Hcand.
  { unfold candidates. by rewrite Hidx. }
  rewrite Hidx in Hnamed. rewrite Hcand in Hset.
  assert (Hequal : Table.MainUniqueIndexName T2 = Table.MainUniqueIndexName T1 →
                   corrected r2 T2 = corrected r1 T1).
  { intros E. rewrite (sameExceptMain_eq T1 T2 Hsame E).
    unfold corrected. by rewrite (revoked_keys r2 r1 T1 Hk). }
  destruct (Hel Hnamed) as [E|[H1 H2]]; [by apply Hequal|].
  destruct Hset as [Hlen|Hall].
  - apply Hequal.
    destruct (candidates T1) as [|c [|c' rest]]; simpl in Hlen; [| |lia].
    + by apply elem_of_nil in H1.
    + apply list_elem_of_singleton in H1, H2. congruence.
  - assert (Hkey : ∀ name, name ∈ candidates T1 → name ≠ "").
    { intros name [index Hl]%candidates_key ->. congruence. }
    rewrite Forall_forall in Hall.
    assert (revoked r1 T1 = true) as Hr1.
    { apply (revokedAs_revoked r1 (corrected r1 <$> r1) (corrected r1 T1) T1);
        [apply keysOf_corrected|done|done|by apply Hkey|by apply Hall]. }
    assert (revoked r2 T2 = true) as Hr2.
    { destruct Hsame as (_&_&_&_& Hidx2 & Href2).
      apply (revokedAs_revoked r2 (corrected r1 <$> r1) (corrected r1 T1) T2).
      - by rewrite keysOf_corrected.
      - by rewrite Hidx2.
      - by rewrite Href2.
      - by apply Hkey.
      - by apply Hall. }
    unfold corrected. rewrite Hr1, Hr2. by apply sameExceptMain_cleared.
Qed.

Lemma corrected_alike_list (ra rb l1 l2 : list Table.t) :
  keysOf rb = keysOf ra →
  Forall2 electedAlike l1 l2 →
  Forall (λ T, settled (corrected ra <$> ra) (corrected ra T)) l1 →
  corrected rb <$> l2 = corrected ra <$> l1.
Proof.
  intros Hk Hall. induction Hall as [|T1 T2 l1 l2 HT _ IH]; [done|].
  intros [HsetT Hset]%Forall_cons. rewrite !fmap_cons. f_equal.
  - by apply corrected_alike.
  - by apply IH.
Qed.

(** * Claim on determinism *)

(** C6, as stated, fails: with two unique indexes on [label], and likewise
    with none on [label] and two on [name], the name that [ReadTables] elects
    for [rhnchannel] is the one or the other, by the order in which [range]
    yields the entries of the map. *)
Lemma election_depends_on_range_order :
  validSchedule ascending ∧ validSchedule descending
  ∧ (mainNames (ReadTables ascending exTwoLabelsDB) !! 0%nat
     = Some "rhn_channel_org_label_uq"
     ∧ mainNames (ReadTables descending exTwoLabelsDB) !! 0%nat
       = Some "rhn_channel_label_uq")
  ∧ (mainNames (ReadTables ascending exTwoNamesDB) !! 0%nat
     = Some "rhn_channel_org_name_uq"
     ∧ mainNames (ReadTables descending exTwoNamesDB) !! 0%nat
       = Some "rhn_channel_name_uq").
Proof.
  split; [apply ascending_valid|]. split; [apply descending_valid|].
  repeat split; vm_compute; reflexivity.
Qed.

(** C6, amended: on the same answers of the catalog, two runs of
    [ReadTables] end alike, with the same [MainUniqueIndexName] in every
    table, whatever the orders of [range] over the maps, provided that in
    every table the indexes among which the order chooses (the unique
    indexes with a column [label] or, when there is none, those with a
    column [name]) are at most one, or are all revoked by the correction
    pass; no index being named by the empty string. *)
Theorem election_deterministic (σ1 σ2 : schedule) (db : DB) :
  validSchedule σ1 → validSchedule σ2 →
  (∀ result, ReadTables σ1 db = Done result → Forall (settled result) result) →
  ReadTables σ2 db = ReadTables σ1 db
  ∧ mainNames (ReadTables σ2 db) = mainNames (ReadTables σ1 db).
Proof.
  intros Hσ1 Hσ2 Hset.
  assert (ReadTables σ2 db = ReadTables σ1 db) as ->; [|done].
  unfold ReadTables, readTablesOf in *.
  assert (Hloop := assembleLoop_electedAlike σ1 σ2 db Hσ1 Hσ2 (readTableNames db) 0 [] []).
  specialize (Hloop ltac:(constructor)).
  destruct (assembleLoop σ1 db 0 (readTableNames db) []) as [|r1],
           (assembleLoop σ2 db 0 (readTableNames db) []) as [|r2]; try done.
  simpl in *. specialize (Hset _ eq_refl).
  rewrite !correctionPass_spec in *. f_equal.
  apply corrected_alike_list; [by apply electedAlike_keysOf|done|].
  by rewrite Forall_fmap in Hset.
Qed.

Lemma election_deterministic_witness :
  ReadTables descending exSettledDB = ReadTables ascending exSettledDB
  ∧ mainNames (ReadTables descending exSettledDB)
    = mainNames (ReadTables ascending exSettledDB).
Proof.
  apply (election_deterministic ascending descending exSettledDB).
  - apply ascending_valid.
  - apply descending_valid.
  - intros result H. vm_compute in H. injection H as <-.
    repeat (apply Forall_cons; split;
            [split; [vm_compute; reflexivity|];
             first [ left; vm_compute; lia
                   | right; vm_compute (candidates _);
                     repeat (apply Forall_cons; split;
                             [apply revokedAs_bool; [discriminate|vm_compute; reflexivity]|]);
                     apply Forall_nil_2 ]|]).
    apply Forall_nil_2.
Defined.

(** * The proviso is needed *)








